(** * Item store of the demo API (app/main.py)

    A shallow embedding of the request handlers of [app/main.py]: the
    in-memory [items_db] dictionary, the handlers that read and mutate it,
    the health check, and the HTTP status each handler answers with.

    Modelling choices, all taken from the source:
    - Python [int] is [Z] (unbounded); path parameters [item_id] range over
      all of [Z], negative numbers and zero included.
    - Python [float] is an IEEE binary64 value, [PrimFloat.float].  The
      handlers never compute with prices, they only store them.
    - A handler stores and returns the very [Item] object it is given and
      no handler mutates an item, so an item is a value here and "equal"
      in the statements below is equality of that value.
    - [items_db : Dict[int, Item]] is a finite map [gmap Z Item].  Only
      membership, lookup, assignment, deletion and the maximum of the keys
      are used by these handlers.  [list_items], which depends on the
      insertion order of the dictionary, is embedded in the module
      [Ordered], over an association list kept in insertion order, and
      related to the finite-map model by [forget].
    - [os.environ] is a finite map from variable names to values.
    - [logger.info] appends the formatted message to a list of records.
    - A handler threads the process state and either returns a value or
      raises; [KeyError] is kept as a possible exception of [items_db[k]]
      and [del items_db[k]], as in Python. *)

From Stdlib Require Import ZArith String Floats.PrimFloat.
From stdpp Require Import gmap strings list fin_maps pretty.
From stdpp Require Import sorting.

Local Open Scope Z_scope.

(** ** Data model *)

(** [class Item(BaseModel)] *)
Record Item := mkItem {
  name : string;
  description : option string;
  price : float;
  tax : option float
}.

(** [class HealthResponse(BaseModel)] *)
Record HealthResponse := mkHealthResponse {
  status : string;
  version : string;
  environment : string
}.

(** The process state the handlers see: the module-level [items_db], the
    environment of the process, and what the logger has emitted so far. *)
Record state := mkState {
  items_db : gmap Z Item;
  environ : gmap string string;
  log_records : list string
}.

(** [items_db: Dict[int, Item] = {}] at import time. *)
Definition initial (env : gmap string string) : state :=
  {| items_db := ∅; environ := env; log_records := [] |}.

(** ** Exceptions and the handler monad *)

Inductive exception :=
| HTTPException (status_code : Z) (detail : string)
| KeyError (key : Z).

Inductive outcome (A : Type) :=
| Return (a : A)
| Raise (e : exception).
Arguments Return {A} a.
Arguments Raise {A} e.

Definition handler (A : Type) : Type := state → outcome A * state.

Definition ret {A} (a : A) : handler A := λ s, (Return a, s).

Definition raise {A} (e : exception) : handler A := λ s, (Raise e, s).

Definition bind {A B} (c : handler A) (k : A → handler B) : handler B :=
  λ s, match c s with
       | (Return a, s') => k a s'
       | (Raise e, s') => (Raise e, s')
       end.

Notation "x <- c ;; k" := (bind c (λ x, k))
  (at level 100, c at next level, right associativity).
Notation "c ;;; k" := (bind c (λ _, k))
  (at level 100, right associativity).

(** ** The Python primitives the handlers call *)

(** [max(iterable, default=d)]: [d] on an empty iterable, otherwise the
    largest element, found by one left-to-right pass. *)
Definition py_max (xs : list Z) (d : Z) : Z :=
  match xs with
  | [] => d
  | x :: rest => foldl Z.max x rest
  end.

(** [items_db.keys()] *)
Definition dict_keys (db : gmap Z Item) : list Z := (map_to_list db).*1.

Definition keys : handler (list Z) :=
  λ s, (Return (dict_keys (items_db s)), s).

(** [k in items_db] *)
Definition contains (k : Z) : handler bool :=
  λ s, (Return (bool_decide (is_Some (items_db s !! k))), s).

(** [items_db[k]] *)
Definition getitem (k : Z) : handler Item :=
  λ s, match items_db s !! k with
       | Some it => (Return it, s)
       | None => (Raise (KeyError k), s)
       end.

(** [items_db[k] = it] *)
Definition setitem (k : Z) (it : Item) : handler unit :=
  λ s, (Return (),
        {| items_db := <[k := it]> (items_db s);
           environ := environ s;
           log_records := log_records s |}).

(** [del items_db[k]] *)
Definition delitem (k : Z) : handler unit :=
  λ s, match items_db s !! k with
       | Some _ =>
           (Return (),
            {| items_db := delete k (items_db s);
               environ := environ s;
               log_records := log_records s |})
       | None => (Raise (KeyError k), s)
       end.

(** [os.getenv(key, default)] *)
Definition getenv (key dflt : string) : handler string :=
  λ s, (Return (default dflt (environ s !! key)), s).

(** [logger.info(msg)] *)
Definition logger_info (msg : string) : handler unit :=
  λ s, (Return (),
        {| items_db := items_db s;
           environ := environ s;
           log_records := log_records s ++ [msg] |}).

(** The three f-strings of the handlers; [pretty] prints a [Z] in decimal
    with a leading minus sign, as [str(int)] does. *)
Definition created_message (new_id : Z) (item : Item) : string :=
  "Created item " +:+ pretty new_id +:+ ": " +:+ name item.

Definition updated_message (item_id : Z) (item : Item) : string :=
  "Updated item " +:+ pretty item_id +:+ ": " +:+ name item.

Definition deleted_message (item_id : Z) : string :=
  "Deleted item " +:+ pretty item_id.

(** ** The handlers *)

Definition not_found : exception := HTTPException 404 "Item not found".

(** [async def root()] *)
Definition root : handler (gmap string string) :=
  ret (<["message" := "Welcome to Secure Docker CI Pipeline Demo"]>
       (<["docs" := "/docs"]>
        (<["health" := "/health"]> ∅))).

(** [async def health_check()] *)
Definition health_check : handler HealthResponse :=
  env <- getenv "ENVIRONMENT" "production" ;;
  ret {| status := "healthy"; version := "1.0.0"; environment := env |}.

(** [async def get_item(item_id)] *)
Definition get_item (item_id : Z) : handler Item :=
  present <- contains item_id ;;
  if negb present then raise not_found
  else getitem item_id.

(** [async def create_item(item)] *)
Definition create_item (item : Item) : handler Item :=
  ks <- keys ;;
  let new_id := py_max ks 0 + 1 in
  setitem new_id item ;;;
  logger_info (created_message new_id item) ;;;
  ret item.

(** [async def update_item(item_id, item)] *)
Definition update_item (item_id : Z) (item : Item) : handler Item :=
  present <- contains item_id ;;
  if negb present then raise not_found
  else
    setitem item_id item ;;;
    logger_info (updated_message item_id item) ;;;
    ret item.

(** [async def delete_item(item_id)] *)
Definition delete_item (item_id : Z) : handler (gmap string string) :=
  present <- contains item_id ;;
  if negb present then raise not_found
  else
    delitem item_id ;;;
    logger_info (deleted_message item_id) ;;;
    ret (<["message" := "Item deleted successfully"]> ∅).

(** ** The HTTP layer

    What the route decorators and the framework add around a handler: the
    status code of a successful call (200 unless the decorator says
    otherwise; [create_item] has [status_code=201]), the translation of a
    raised [HTTPException] into a response with its status code and a
    [detail] body, and 500 for any other exception. *)

Inductive request :=
| GET_root
| GET_health
| GET_item (item_id : Z)
| POST_items (item : Item)
| PUT_item (item_id : Z) (item : Item)
| DELETE_item (item_id : Z).

Inductive content :=
| ItemBody (item : Item)
| HealthBody (h : HealthResponse)
| DictBody (d : gmap string string)
| TextBody (t : string).

Record response := mkResponse {
  http_status : Z;
  http_body : content
}.

Definition respond {A} (success : Z) (enc : A → content)
    (r : outcome A * state) : response * state :=
  match r with
  | (Return a, s) => (mkResponse success (enc a), s)
  | (Raise (HTTPException code detail), s) =>
      (mkResponse code (DictBody (<["detail" := detail]> ∅)), s)
  | (Raise (KeyError _), s) =>
      (mkResponse 500 (TextBody "Internal Server Error"), s)
  end.

Definition serve (req : request) (s : state) : response * state :=
  match req with
  | GET_root => respond 200 DictBody (root s)
  | GET_health => respond 200 HealthBody (health_check s)
  | GET_item item_id => respond 200 ItemBody (get_item item_id s)
  | POST_items item => respond 201 ItemBody (create_item item s)
  | PUT_item item_id item => respond 200 ItemBody (update_item item_id item s)
  | DELETE_item item_id => respond 200 DictBody (delete_item item_id s)
  end.

(** The state after a sequence of requests, served one after the other. *)
Definition run (reqs : list request) (s : state) : state :=
  foldl (λ st req, (serve req st).2) s reqs.

(** ** Reading the claims

    The words of the specification, as predicates on the model. *)

(** "max(existing IDs, default 0)": [m] is the largest key of [db], or [0]
    when [db] has no key. *)
Definition max_existing_id (db : gmap Z Item) (m : Z) : Prop :=
  (db = ∅ ∧ m = 0) ∨ (is_Some (db !! m) ∧ ∀ k, is_Some (db !! k) → k ≤ m).

(** "the highest-numbered ID" of a non-empty store. *)
Definition highest_id (db : gmap Z Item) (h : Z) : Prop :=
  is_Some (db !! h) ∧ ∀ k, is_Some (db !! k) → k ≤ h.

(** The ID the next [create_item] assigns in store [db] (line 80). *)
Definition next_id (db : gmap Z Item) : Z := py_max (dict_keys db) 0 + 1.

(** "IDs 1..N": the keys of [db] are exactly the integers from 1 to [n]. *)
Definition ids_1_to (n : Z) (db : gmap Z Item) : Prop :=
  ∀ k, is_Some (db !! k) ↔ 1 ≤ k ≤ n.

(** "deleting the highest-numbered ID and then performing a create assigns
    that same ID again": after [delete_item h], the next ID is [h]. *)
Definition reuses_id (s : state) (h : Z) : Prop :=
  next_id (items_db (delete_item h s).2) = h.

(** ** Sample data

    Items in the style of the test suite, used to run the model on
    concrete stores. *)

Definition item_1 : Item :=
  {| name := "Item 1"; description := None; price := 10%float; tax := None |}.

Definition item_2 : Item :=
  {| name := "Item 2"; description := None; price := 20%float; tax := None |}.

Definition item_3 : Item :=
  {| name := "Item 3"; description := None; price := 30%float; tax := None |}.

Definition laptop : Item :=
  {| name := "Laptop"; description := Some "High-performance laptop";
     price := 1300%float; tax := Some 130%float |}.

Definition phone : Item :=
  {| name := "Phone"; description := None; price := 700%float; tax := None |}.

(** Three items created, then the middle one deleted: keys 1 and 3. *)
Definition gap_state : state :=
  run [POST_items item_1; POST_items item_2; POST_items item_3; DELETE_item 2]
      (initial ∅).

(** A store holding the laptop under key 1. *)
Definition laptop_state : state := run [POST_items laptop] (initial ∅).

(** ** Requests by kind *)

(** The routes whose handler writes to [items_db]: POST, PUT and DELETE. *)
Definition is_mutation (req : request) : bool :=
  match req with
  | POST_items _ | PUT_item _ _ | DELETE_item _ => true
  | GET_root | GET_health | GET_item _ => false
  end.

Definition is_post (req : request) : bool :=
  match req with
  | POST_items _ => true
  | _ => false
  end.

(** How many of [reqs] are POST /items. *)
Definition posts (reqs : list request) : nat :=
  length (filter (λ req, is_post req) reqs).

(** The invariant behind the bound on IDs: all keys positive, next ID at
    most [n + 1], at most [n] entries. *)
Definition within (n : nat) (s : state) : Prop :=
  (∀ k, is_Some (items_db s !! k) → 0 < k) ∧
  next_id (items_db s) ≤ Z.of_nat n + 1 ∧
  (size (items_db s) ≤ n)%nat.

(** ** The fixture of the test suite (app/test_app.py)

    [reset_db] calls [items_db.clear()] before and after each test. *)
Definition items_db_clear : handler unit :=
  λ s, (Return (),
        {| items_db := ∅; environ := environ s; log_records := log_records s |}).

(** ** The dictionary with its insertion order

    [list_items] returns [list(items_db.values())], and a Python dictionary
    iterates in insertion order: assigning to a new key appends it, assigning
    to an existing key keeps its place, deleting a key removes it.  The module
    embeds the handlers once more over an association list kept in insertion
    order, so that [list_items] can be stated; [forget] maps its states to
    the finite-map states above. *)

Module Ordered.

(** [d.get(k)] on the association list: the entry with key [k]. *)
Fixpoint od_get (k : Z) (d : list (Z * Item)) : option Item :=
  match d with
  | [] => None
  | (k', v) :: d' => if decide (k' = k) then Some v else od_get k d'
  end.

(** [d[k] = v]: in place when [k] is a key, at the end otherwise. *)
Fixpoint od_set (k : Z) (v : Item) (d : list (Z * Item)) : list (Z * Item) :=
  match d with
  | [] => [(k, v)]
  | (k', v') :: d' =>
      if decide (k' = k) then (k', v) :: d' else (k', v') :: od_set k v d'
  end.

(** [del d[k]]: the entry with key [k] goes, the others keep their order. *)
Fixpoint od_del (k : Z) (d : list (Z * Item)) : list (Z * Item) :=
  match d with
  | [] => []
  | (k', v') :: d' =>
      if decide (k' = k) then od_del k d' else (k', v') :: od_del k d'
  end.

Record state := mkState {
  items_db : list (Z * Item);
  environ : gmap string string;
  log_records : list string
}.

Definition initial (env : gmap string string) : state :=
  {| items_db := []; environ := env; log_records := [] |}.

Definition handler (A : Type) : Type := state → outcome A * state.

Definition ret {A} (a : A) : handler A := λ s, (Return a, s).

Definition raise {A} (e : exception) : handler A := λ s, (Raise e, s).

Definition bind {A B} (c : handler A) (k : A → handler B) : handler B :=
  λ s, match c s with
       | (Return a, s') => k a s'
       | (Raise e, s') => (Raise e, s')
       end.

#[local, warnings="-notation-overridden"] Notation "x <- c ;; k" := (bind c (λ x, k))
  (at level 100, c at next level, right associativity).
#[local, warnings="-notation-overridden"] Notation "c ;;; k" := (bind c (λ _, k))
  (at level 100, right associativity).

(** [items_db.keys()] and [items_db.values()], in insertion order. *)
Definition keys : handler (list Z) :=
  λ s, (Return (items_db s).*1, s).

Definition values : handler (list Item) :=
  λ s, (Return (items_db s).*2, s).

Definition contains (k : Z) : handler bool :=
  λ s, (Return (bool_decide (is_Some (od_get k (items_db s)))), s).

Definition getitem (k : Z) : handler Item :=
  λ s, match od_get k (items_db s) with
       | Some it => (Return it, s)
       | None => (Raise (KeyError k), s)
       end.

Definition setitem (k : Z) (it : Item) : handler unit :=
  λ s, (Return (),
        {| items_db := od_set k it (items_db s);
           environ := environ s;
           log_records := log_records s |}).

Definition delitem (k : Z) : handler unit :=
  λ s, match od_get k (items_db s) with
       | Some _ =>
           (Return (),
            {| items_db := od_del k (items_db s);
               environ := environ s;
               log_records := log_records s |})
       | None => (Raise (KeyError k), s)
       end.

Definition logger_info (msg : string) : handler unit :=
  λ s, (Return (),
        {| items_db := items_db s;
           environ := environ s;
           log_records := log_records s ++ [msg] |}).

(** [async def list_items()] *)
Definition list_items : handler (list Item) :=
  vs <- values ;;
  ret vs.

(** [async def get_item(item_id)] *)
Definition get_item (item_id : Z) : handler Item :=
  present <- contains item_id ;;
  if negb present then raise not_found
  else getitem item_id.

(** [async def create_item(item)] *)
Definition create_item (item : Item) : handler Item :=
  ks <- keys ;;
  let new_id := py_max ks 0 + 1 in
  setitem new_id item ;;;
  logger_info (created_message new_id item) ;;;
  ret item.

(** [async def update_item(item_id, item)] *)
Definition update_item (item_id : Z) (item : Item) : handler Item :=
  present <- contains item_id ;;
  if negb present then raise not_found
  else
    setitem item_id item ;;;
    logger_info (updated_message item_id item) ;;;
    ret item.

(** [async def delete_item(item_id)] *)
Definition delete_item (item_id : Z) : handler (gmap string string) :=
  present <- contains item_id ;;
  if negb present then raise not_found
  else
    delitem item_id ;;;
    logger_info (deleted_message item_id) ;;;
    ret (<["message" := "Item deleted successfully"]> ∅).

(** The state after one request; [root] and [health_check] do not touch
    the dictionary or the log. *)
Definition step (req : request) (s : state) : state :=
  match req with
  | GET_root | GET_health => s
  | GET_item item_id => (get_item item_id s).2
  | POST_items item => (create_item item s).2
  | PUT_item item_id item => (update_item item_id item s).2
  | DELETE_item item_id => (delete_item item_id s).2
  end.

Definition run (reqs : list request) (s : state) : state :=
  foldl (λ st req, step req st) s reqs.

End Ordered.

(** The finite-map state behind an ordered state: the same entries, their
    order forgotten. *)
Definition forget (s : Ordered.state) : state :=
  {| items_db := list_to_map (Ordered.items_db s);
     environ := Ordered.environ s;
     log_records := Ordered.log_records s |}.

(** The same for the outcome of a handler. *)
Definition forget_result {A} (r : outcome A * Ordered.state) : outcome A * state :=
  (r.1, forget r.2).

(** ** Facts about the primitives *)

Section py_max_facts.
Implicit Types (xs : list Z) (x d : Z).

Lemma foldl_max_lower xs x : x ≤ foldl Z.max x xs.
Proof.
  revert x. induction xs as [|y ys IH]; intros x; simpl; [lia|].
  specialize (IH (Z.max x y)). lia.
Qed.

Lemma foldl_max_upper xs x y : y ∈ xs → y ≤ foldl Z.max x xs.
Proof.
  revert x. induction xs as [|z zs IH]; intros x Hy; simpl.
  - by apply not_elem_of_nil in Hy.
  - apply elem_of_cons in Hy as [->|Hy]; [|by apply IH].
    pose proof (foldl_max_lower zs (Z.max x z)). lia.
Qed.

Lemma foldl_max_attained xs x :
  foldl Z.max x xs = x ∨ foldl Z.max x xs ∈ xs.
Proof.
  revert x. induction xs as [|z zs IH]; intros x; simpl; [by left|].
  destruct (IH (Z.max x z)) as [Heq|Hin].
  - rewrite Heq. destruct (Z.max_spec x z) as [[_ ->]|[_ ->]].
    + right. apply elem_of_cons. by left.
    + by left.
  - right. apply elem_of_cons. by right.
Qed.

Lemma py_max_nil d : py_max [] d = d.
Proof. reflexivity. Qed.

Lemma py_max_upper xs d y : y ∈ xs → y ≤ py_max xs d.
Proof.
  destruct xs as [|x rest]; simpl; intros Hy.
  - by apply not_elem_of_nil in Hy.
  - apply elem_of_cons in Hy as [->|Hy].
    + apply foldl_max_lower.
    + by apply foldl_max_upper.
Qed.

Lemma py_max_attained xs d : xs ≠ [] → py_max xs d ∈ xs.
Proof.
  destruct xs as [|x rest]; [done|]; intros _; simpl.
  destruct (foldl_max_attained rest x) as [->|Hin];
    apply elem_of_cons; [by left|by right].
Qed.
End py_max_facts.

Section dict_facts.
Implicit Types (db : gmap Z Item) (k : Z).

Lemma elem_of_dict_keys db k : k ∈ dict_keys db ↔ is_Some (db !! k).
Proof.
  unfold dict_keys. rewrite list_elem_of_fmap. split.
  - intros [[k' it] [-> Hin]]. apply elem_of_map_to_list in Hin.
    simpl. by exists it.
  - intros [it Hit]. exists (k, it). split; [done|].
    by apply elem_of_map_to_list.
Qed.

Lemma dict_keys_nil db : dict_keys db = [] ↔ db = ∅.
Proof.
  unfold dict_keys. split.
  - intros H. apply fmap_nil_inv in H. by apply map_to_list_empty_iff.
  - intros ->. by rewrite map_to_list_empty.
Qed.

(** The one-pass maximum of the keys is the maximum the specification
    speaks of. *)
Lemma py_max_dict_keys db : max_existing_id db (py_max (dict_keys db) 0).
Proof.
  destruct (decide (dict_keys db = [])) as [Hnil|Hne].
  - left. rewrite Hnil. split; [by apply dict_keys_nil|done].
  - right. split.
    + apply elem_of_dict_keys. by apply py_max_attained.
    + intros k Hk. apply py_max_upper. by apply elem_of_dict_keys.
Qed.

Lemma max_existing_id_unique db m1 m2 :
  max_existing_id db m1 → max_existing_id db m2 → m1 = m2.
Proof.
  intros [[-> ->]|[H1 U1]] [[E2 ->]|[H2 U2]]; try done.
  - rewrite lookup_empty in H2. by destruct H2.
  - rewrite E2, lookup_empty in H1. by destruct H1.
  - specialize (U1 _ H2). specialize (U2 _ H1). lia.
Qed.

Lemma next_id_above db k : is_Some (db !! k) → k < next_id db.
Proof.
  intros Hk. unfold next_id.
  apply elem_of_dict_keys in Hk. apply (py_max_upper _ 0) in Hk. lia.
Qed.

Lemma next_id_fresh db : db !! next_id db = None.
Proof.
  destruct (db !! next_id db) as [it|] eqn:E; [|done].
  assert (next_id db < next_id db) by (apply next_id_above; eauto). lia.
Qed.

Lemma next_id_empty : next_id ∅ = 1.
Proof. reflexivity. Qed.
End dict_facts.

(** ** What each handler does, in closed form *)

Section handler_runs.
Implicit Types (s : state) (item : Item) (item_id : Z).

Lemma contains_present s item_id :
  is_Some (items_db s !! item_id) → contains item_id s = (Return true, s).
Proof. intros H. unfold contains. by rewrite bool_decide_eq_true_2. Qed.

Lemma contains_absent s item_id :
  items_db s !! item_id = None → contains item_id s = (Return false, s).
Proof.
  intros H. unfold contains. rewrite bool_decide_eq_false_2; [done|].
  rewrite H. by intros [? ?].
Qed.

Lemma health_check_run s :
  health_check s =
    (Return {| status := "healthy"; version := "1.0.0";
               environment := default "production" (environ s !! "ENVIRONMENT") |},
     s).
Proof. reflexivity. Qed.

Lemma get_item_present s item_id item :
  items_db s !! item_id = Some item → get_item item_id s = (Return item, s).
Proof.
  intros H. unfold get_item, bind.
  rewrite contains_present by eauto. simpl. unfold getitem. by rewrite H.
Qed.

Lemma get_item_absent s item_id :
  items_db s !! item_id = None → get_item item_id s = (Raise not_found, s).
Proof.
  intros H. unfold get_item, bind. by rewrite contains_absent.
Qed.

Lemma create_item_run s item :
  create_item item s =
    (Return item,
     {| items_db := <[next_id (items_db s) := item]> (items_db s);
        environ := environ s;
        log_records :=
          log_records s ++ [created_message (next_id (items_db s)) item] |}).
Proof. reflexivity. Qed.

Lemma update_item_present s item_id item :
  is_Some (items_db s !! item_id) →
  update_item item_id item s =
    (Return item,
     {| items_db := <[item_id := item]> (items_db s);
        environ := environ s;
        log_records := log_records s ++ [updated_message item_id item] |}).
Proof.
  intros H. unfold update_item, bind. by rewrite contains_present.
Qed.

Lemma update_item_absent s item_id item :
  items_db s !! item_id = None →
  update_item item_id item s = (Raise not_found, s).
Proof.
  intros H. unfold update_item, bind. by rewrite contains_absent.
Qed.

Lemma delete_item_present s item_id :
  is_Some (items_db s !! item_id) →
  delete_item item_id s =
    (Return (<["message" := "Item deleted successfully"]> ∅),
     {| items_db := delete item_id (items_db s);
        environ := environ s;
        log_records := log_records s ++ [deleted_message item_id] |}).
Proof.
  intros H. unfold delete_item, bind. rewrite contains_present by done.
  simpl. unfold delitem. by destruct H as [it ->].
Qed.

Lemma delete_item_absent s item_id :
  items_db s !! item_id = None →
  delete_item item_id s = (Raise not_found, s).
Proof.
  intros H. unfold delete_item, bind. by rewrite contains_absent.
Qed.

Lemma update_item_items_db s item_id item :
  items_db (update_item item_id item s).2 =
    if decide (is_Some (items_db s !! item_id))
    then <[item_id := item]> (items_db s) else items_db s.
Proof.
  case_decide as E.
  - by rewrite update_item_present.
  - rewrite update_item_absent; [done|]. by apply eq_None_not_Some.
Qed.

Lemma delete_item_items_db s item_id :
  items_db (delete_item item_id s).2 = delete item_id (items_db s).
Proof.
  destruct (items_db s !! item_id) as [it|] eqn:E.
  - rewrite delete_item_present by eauto. done.
  - rewrite delete_item_absent by done. simpl. symmetry. by apply delete_id.
Qed.

(** The store after one request: unchanged, or changed at one key. *)
Lemma serve_items_db req s :
  items_db (serve req s).2 =
    match req with
    | GET_root | GET_health | GET_item _ => items_db s
    | POST_items item => <[next_id (items_db s) := item]> (items_db s)
    | PUT_item item_id item =>
        if decide (is_Some (items_db s !! item_id))
        then <[item_id := item]> (items_db s) else items_db s
    | DELETE_item item_id => delete item_id (items_db s)
    end.
Proof.
  destruct req as [| |item_id|item|item_id item|item_id]; simpl; try done.
  - destruct (items_db s !! item_id) as [it|] eqn:E.
    + by rewrite (get_item_present _ _ it).
    + by rewrite get_item_absent.
  - case_decide as E.
    + by rewrite update_item_present.
    + rewrite update_item_absent; [done|].
      by apply eq_None_not_Some.
  - destruct (items_db s !! item_id) as [it|] eqn:E.
    + rewrite delete_item_present by eauto. done.
    + rewrite delete_item_absent by done. simpl.
      symmetry. by apply delete_id.
Qed.

Lemma serve_environ req s : environ (serve req s).2 = environ s.
Proof.
  destruct req as [| |item_id|item|item_id item|item_id]; simpl; try done.
  - destruct (items_db s !! item_id) as [it|] eqn:E.
    + by rewrite (get_item_present _ _ it).
    + by rewrite get_item_absent.
  - destruct (items_db s !! item_id) as [it|] eqn:E.
    + rewrite update_item_present by eauto. done.
    + by rewrite update_item_absent.
  - destruct (items_db s !! item_id) as [it|] eqn:E.
    + rewrite delete_item_present by eauto. done.
    + by rewrite delete_item_absent.
Qed.
End handler_runs.

(** ** The test suite, replayed on the model *)

(** [test_get_item]: create the laptop, then GET /items/1. *)
Example test_get_item :
  (serve (GET_item 1) (run [POST_items laptop] (initial ∅))).1
    = mkResponse 200 (ItemBody laptop).
Proof. reflexivity. Qed.

(** [test_get_nonexistent_item], [test_update_nonexistent_item] and
    [test_delete_nonexistent_item]: 404 on the empty store. *)
Example test_nonexistent_item :
  http_status (serve (GET_item 999) (initial ∅)).1 = 404 ∧
  http_status (serve (PUT_item 999 phone) (initial ∅)).1 = 404 ∧
  http_status (serve (DELETE_item 999) (initial ∅)).1 = 404.
Proof. by vm_compute. Qed.

(** [test_delete_item]: create, DELETE /items/1 (200), GET /items/1 (404). *)
Example test_delete_item :
  let s := run [POST_items phone] (initial ∅) in
  http_status (serve (DELETE_item 1) s).1 = 200 ∧
  http_status (serve (GET_item 1) (serve (DELETE_item 1) s).2).1 = 404.
Proof. by vm_compute. Qed.

(** [test_health_check] with and without the ENVIRONMENT variable. *)
Example test_health_check :
  (serve GET_health (initial ∅)).1
    = mkResponse 200 (HealthBody (mkHealthResponse "healthy" "1.0.0" "production")) ∧
  (serve GET_health (initial (<["ENVIRONMENT" := "staging"]> ∅))).1
    = mkResponse 200 (HealthBody (mkHealthResponse "healthy" "1.0.0" "staging")).
Proof. by vm_compute. Qed.

(** What the logger has seen after the requests that lead to [gap_state]. *)
Example gap_state_log :
  log_records gap_state =
    ["Created item 1: Item 1"; "Created item 2: Item 2";
     "Created item 3: Item 3"; "Deleted item 2"].
Proof. by vm_compute. Qed.

(** ** Creation *)

(** C1: in every state, [create_item item] takes as new ID the maximum of
    the existing IDs (0 for an empty store) plus one, stores [item] under
    that ID, logs the creation and returns the stored item (status 201);
    looking the new ID up in the resulting store gives back [item]. *)
Theorem create_item_assigns_max_plus_one (s : state) (item : Item) :
  ∃ m : Z,
    max_existing_id (items_db s) m ∧
    create_item item s =
      (Return item,
       {| items_db := <[m + 1 := item]> (items_db s);
          environ := environ s;
          log_records := log_records s ++ [created_message (m + 1) item] |}) ∧
    items_db (create_item item s).2 !! (m + 1) = Some item ∧
    (serve (POST_items item) s).1 = mkResponse 201 (ItemBody item).
Proof.
  exists (py_max (dict_keys (items_db s)) 0).
  split; [apply py_max_dict_keys|].
  rewrite create_item_run. unfold next_id. simpl.
  split; [done|]. split; [apply lookup_insert_eq|done].
Qed.

(** C2: in every state and for every item, [create_item item] followed by
    [get_item] at the ID that create assigned returns [item] (status 200)
    and leaves the state as the create left it. *)
Theorem create_then_get_round_trip (s : state) (item : Item) :
  let new_id := next_id (items_db s) in
  let s' := (create_item item s).2 in
  items_db s' = <[new_id := item]> (items_db s) ∧
  get_item new_id s' = (Return item, s') ∧
  serve (GET_item new_id) s' = (mkResponse 200 (ItemBody item), s').
Proof.
  intros new_id s'.
  assert (Hdb : items_db s' = <[new_id := item]> (items_db s))
    by (subst s'; by rewrite create_item_run).
  assert (Hget : get_item new_id s' = (Return item, s')).
  { apply get_item_present. rewrite Hdb. apply lookup_insert_eq. }
  repeat split; [done..|]. simpl. by rewrite Hget.
Qed.

(** ** Absent identifiers *)

(** C3: when [item_id] is not a key of the store, [get_item], [update_item]
    and [delete_item] each raise the 404 "Item not found" exception, the
    HTTP response has status 404, and the state (store, log) is unchanged,
    whatever else the store holds. *)
Theorem absent_id_yields_not_found (s : state) (item_id : Z) (item : Item) :
  items_db s !! item_id = None →
  get_item item_id s = (Raise (HTTPException 404 "Item not found"), s) ∧
  update_item item_id item s = (Raise (HTTPException 404 "Item not found"), s) ∧
  delete_item item_id s = (Raise (HTTPException 404 "Item not found"), s) ∧
  (∀ req, req ∈ [GET_item item_id; PUT_item item_id item; DELETE_item item_id] →
     http_status (serve req s).1 = 404 ∧ (serve req s).2 = s).
Proof.
  intros Habs.
  pose proof (get_item_absent s item_id Habs) as Hg.
  pose proof (update_item_absent s item_id item Habs) as Hu.
  pose proof (delete_item_absent s item_id Habs) as Hd.
  repeat split; try done;
    repeat (apply elem_of_cons in H as [->|H]); try (by apply not_elem_of_nil in H);
    simpl; by rewrite ?Hg, ?Hu, ?Hd.
Qed.

Lemma absent_id_yields_not_found_witness :
  get_item 999 laptop_state = (Raise (HTTPException 404 "Item not found"), laptop_state) ∧
  update_item 999 phone laptop_state =
    (Raise (HTTPException 404 "Item not found"), laptop_state) ∧
  delete_item 999 laptop_state =
    (Raise (HTTPException 404 "Item not found"), laptop_state) ∧
  (∀ req, req ∈ [GET_item 999; PUT_item 999 phone; DELETE_item 999] →
     http_status (serve req laptop_state).1 = 404 ∧ (serve req laptop_state).2 = laptop_state).
Proof.
  apply (absent_id_yields_not_found laptop_state 999 phone).
  vm_compute. reflexivity.
Defined.

(** ** Update and delete *)

(** C5: when [item_id] is a key of the store, [update_item item_id new_item]
    succeeds and a following [get_item item_id] returns exactly [new_item],
    whatever record was stored before. *)
Theorem update_then_get_returns_new_item (s : state) (item_id : Z) (new_item : Item) :
  is_Some (items_db s !! item_id) →
  let s' := (update_item item_id new_item s).2 in
  update_item item_id new_item s = (Return new_item, s') ∧
  get_item item_id s' = (Return new_item, s') ∧
  serve (GET_item item_id) s' = (mkResponse 200 (ItemBody new_item), s').
Proof.
  intros Hin s'. subst s'. rewrite update_item_present by done. simpl.
  match goal with |- _ ∧ ?G ∧ _ => assert (Hget : G) end.
  { apply get_item_present. simpl. apply lookup_insert_eq. }
  repeat split; [done|]. simpl. by rewrite Hget.
Qed.

(** The laptop, stored with a description and a tax, is replaced by the
    phone, which has neither: nothing of the old record survives. *)
Lemma update_then_get_returns_new_item_witness :
  let s' := (update_item 1 phone laptop_state).2 in
  update_item 1 phone laptop_state = (Return phone, s') ∧
  get_item 1 s' = (Return phone, s') ∧
  serve (GET_item 1) s' = (mkResponse 200 (ItemBody phone), s').
Proof.
  apply (update_then_get_returns_new_item laptop_state 1 phone).
  vm_compute. eauto.
Defined.

(** C7: when [item_id] is a key of the store, [delete_item item_id] returns
    the confirmation message (status 200), and a following
    [get_item item_id] raises the 404 "Item not found" exception. *)
Theorem delete_then_get_not_found (s : state) (item_id : Z) :
  is_Some (items_db s !! item_id) →
  let s' := (delete_item item_id s).2 in
  (delete_item item_id s).1 = Return (<["message" := "Item deleted successfully"]> ∅) ∧
  http_status (serve (DELETE_item item_id) s).1 = 200 ∧
  get_item item_id s' = (Raise (HTTPException 404 "Item not found"), s') ∧
  http_status (serve (GET_item item_id) s').1 = 404.
Proof.
  intros Hin s'. subst s'. rewrite delete_item_present by done. simpl.
  match goal with |- _ ∧ _ ∧ ?G ∧ _ => assert (Hget : G) end.
  { apply get_item_absent. simpl. apply lookup_delete_eq. }
  repeat split; [by rewrite delete_item_present|done|]. by rewrite Hget.
Qed.

Lemma delete_then_get_not_found_witness :
  let s' := (delete_item 1 laptop_state).2 in
  (delete_item 1 laptop_state).1 =
    Return (<["message" := "Item deleted successfully"]> ∅) ∧
  http_status (serve (DELETE_item 1) laptop_state).1 = 200 ∧
  get_item 1 s' = (Raise (HTTPException 404 "Item not found"), s') ∧
  http_status (serve (GET_item 1) s').1 = 404.
Proof.
  apply (delete_then_get_not_found laptop_state 1).
  vm_compute. eauto.
Defined.

(** ** Health check *)

(** C8: whatever the environment of the process and the rest of the state,
    [health_check] returns status "healthy", the non-empty version "1.0.0",
    and as environment the value of the ENVIRONMENT variable, or
    "production" when that variable is not set; the state is unchanged. *)
Theorem health_check_reports (s : state) :
  ∃ h : HealthResponse,
    health_check s = (Return h, s) ∧
    serve GET_health s = (mkResponse 200 (HealthBody h), s) ∧
    status h = "healthy" ∧
    version h ≠ "" ∧
    environment h = match environ s !! "ENVIRONMENT" with
                    | Some v => v
                    | None => "production"
                    end.
Proof.
  eexists. split; [apply health_check_run|].
  split; [done|]. simpl. split; [done|]. split; [done|].
  by destruct (environ s !! "ENVIRONMENT").
Qed.

(** ** Frame *)

(** C9: each mutating handler changes the store at one key at most.
    [create_item] writes only the new ID, which was not a key before, so
    every existing entry keeps its value; [update_item] leaves every key
    other than [item_id] as it was; [delete_item] leaves every key other
    than [item_id] as it was, and [item_id] is not a key afterwards. *)
Theorem mutations_touch_one_entry (s : state) (item_id : Z) (item : Item) :
  (∀ k, k ≠ next_id (items_db s) →
        items_db (create_item item s).2 !! k = items_db s !! k) ∧
  (∀ k old, items_db s !! k = Some old →
        items_db (create_item item s).2 !! k = Some old) ∧
  (∀ k, k ≠ item_id →
        items_db (update_item item_id item s).2 !! k = items_db s !! k) ∧
  (∀ k, k ≠ item_id →
        items_db (delete_item item_id s).2 !! k = items_db s !! k) ∧
  items_db (delete_item item_id s).2 !! item_id = None.
Proof.
  rewrite create_item_run. simpl.
  split; [|split; [|split; [|split]]].
  - intros k Hk. by rewrite lookup_insert_ne.
  - intros k old Hk. rewrite lookup_insert_ne; [done|].
    intros <-. by rewrite next_id_fresh in Hk.
  - intros k Hk. destruct (items_db s !! item_id) as [it|] eqn:E.
    + rewrite update_item_present by eauto. simpl. by rewrite lookup_insert_ne.
    + by rewrite update_item_absent.
  - intros k Hk. destruct (items_db s !! item_id) as [it|] eqn:E.
    + rewrite delete_item_present by eauto. simpl. by rewrite lookup_delete_ne.
    + by rewrite delete_item_absent.
  - destruct (items_db s !! item_id) as [it|] eqn:E.
    + rewrite delete_item_present by eauto. simpl. apply lookup_delete_eq.
    + by rewrite delete_item_absent.
Qed.

(** In the store with keys 1 and 3, updating or deleting 3 leaves the
    entry at 1 alone, and so does a create. *)
Lemma mutations_touch_one_entry_witness :
  items_db (create_item phone gap_state).2 !! 1 = Some item_1 ∧
  items_db (update_item 3 phone gap_state).2 !! 1 = Some item_1 ∧
  items_db (delete_item 3 gap_state).2 !! 1 = Some item_1.
Proof.
  pose proof (mutations_touch_one_entry gap_state 3 phone)
    as (_ & Hc & Hu & Hd & _).
  split; [apply Hc; by vm_compute|].
  split; [rewrite Hu by lia; by vm_compute|].
  rewrite Hd by lia; by vm_compute.
Defined.

(** ** Sequences of requests *)

Section runs.
Implicit Types (s : state) (db : gmap Z Item) (reqs : list request).

Lemma run_cons req reqs s : run (req :: reqs) s = run reqs (serve req s).2.
Proof. reflexivity. Qed.

Lemma run_snoc reqs req s : run (reqs ++ [req]) s = (serve req (run reqs s)).2.
Proof. unfold run. by rewrite foldl_app. Qed.

Lemma run_environ reqs s : environ (run reqs s) = environ s.
Proof.
  revert s. induction reqs as [|req reqs IH]; intros s; [done|].
  rewrite run_cons, IH. apply serve_environ.
Qed.

Lemma serve_POST_items item s :
  (serve (POST_items item) s).2 =
    {| items_db := <[next_id (items_db s) := item]> (items_db s);
       environ := environ s;
       log_records :=
         log_records s ++ [created_message (next_id (items_db s)) item] |}.
Proof. reflexivity. Qed.

Lemma next_id_ids_1_to db n : 0 ≤ n → ids_1_to n db → next_id db = n + 1.
Proof.
  intros Hn Hdb. unfold next_id. f_equal.
  destruct (py_max_dict_keys db) as [[-> ->]|[Hin Hup]].
  - destruct (decide (n = 0)) as [->|Hne]; [done|].
    assert (Hone : is_Some ((∅ : gmap Z Item) !! 1)) by (apply Hdb; lia).
    rewrite lookup_empty in Hone. by destruct Hone.
  - apply Hdb in Hin. destruct (decide (n = 0)) as [->|Hne]; [lia|].
    assert (Hlast : is_Some (db !! n)) by (apply Hdb; lia).
    apply Hup in Hlast. lia.
Qed.

Lemma ids_1_to_insert db n item :
  ids_1_to n db → 0 ≤ n → ids_1_to (n + 1) (<[n + 1 := item]> db).
Proof.
  intros Hdb Hn k. rewrite lookup_insert_is_Some, (Hdb k). lia.
Qed.

Lemma ids_1_to_empty : ids_1_to 0 ∅.
Proof.
  intros k. rewrite lookup_empty. split; [by intros [? ?]|lia].
Qed.

(** Creating the items of [its] one after the other in a store whose keys
    are 1..n. *)
Lemma run_creates its s n :
  0 ≤ n → ids_1_to n (items_db s) →
  let s' := run (POST_items <$> its) s in
  ids_1_to (n + Z.of_nat (length its)) (items_db s') ∧
  (∀ k, k ≤ n → items_db s' !! k = items_db s !! k) ∧
  (∀ i it, its !! i = Some it →
           items_db s' !! (n + 1 + Z.of_nat i) = Some it) ∧
  log_records s' =
    log_records s ++ imap (λ i, created_message (n + 1 + Z.of_nat i)) its.
Proof.
  revert s n. induction its as [|it0 rest IH]; intros s n Hn Hdb s'; subst s'.
  - simpl. split; [by rewrite Z.add_0_r|]. split; [done|]. split; [done|].
    by rewrite app_nil_r.
  - rewrite fmap_cons, run_cons, serve_POST_items.
    rewrite (next_id_ids_1_to _ n) by done.
    set (s1 := {| items_db := <[n + 1 := it0]> (items_db s);
                  environ := environ s;
                  log_records := log_records s ++ [created_message (n + 1) it0] |}).
    destruct (IH s1 (n + 1)) as (Hd & Hkeep & Hnew & Hlog);
      [lia|by apply ids_1_to_insert|].
    split; [|split; [|split]].
    + replace (n + Z.of_nat (length (it0 :: rest)))
        with (n + 1 + Z.of_nat (length rest)) by (simpl length; lia).
      exact Hd.
    + intros k Hk. rewrite Hkeep by lia. simpl. apply lookup_insert_ne. lia.
    + intros [|i] it Hit; simpl in Hit.
      * injection Hit as ->. rewrite Z.add_0_r, Hkeep by lia.
        simpl. apply lookup_insert_eq.
      * replace (n + 1 + Z.of_nat (S i)) with (n + 1 + 1 + Z.of_nat i) by lia.
        by apply Hnew.
    + rewrite Hlog. simpl. rewrite <- app_assoc. simpl.
      rewrite Z.add_0_r. do 2 f_equal.
      apply imap_ext. intros i it _. simpl. f_equal. lia.
Qed.

(** Keys stay strictly positive under every request. *)
Lemma next_id_positive db :
  (∀ k, is_Some (db !! k) → 0 < k) → 1 ≤ next_id db.
Proof.
  intros Hpos. unfold next_id.
  destruct (py_max_dict_keys db) as [[_ ->]|[Hin _]]; [lia|].
  apply Hpos in Hin. lia.
Qed.

Lemma serve_keeps_ids_positive req s :
  (∀ k, is_Some (items_db s !! k) → 0 < k) →
  ∀ k, is_Some (items_db (serve req s).2 !! k) → 0 < k.
Proof.
  intros Hpos k. rewrite serve_items_db.
  destruct req as [| |item_id|item|item_id item|item_id]; try apply Hpos.
  - rewrite lookup_insert_is_Some. intros [<-|[_ Hk]]; [|by apply Hpos].
    pose proof (next_id_positive _ Hpos). lia.
  - case_decide as Hin; [|apply Hpos].
    rewrite lookup_insert_is_Some. intros [<-|[_ Hk]]; by apply Hpos.
  - rewrite lookup_delete_is_Some. intros [_ Hk]. by apply Hpos.
Qed.

Lemma run_keeps_ids_positive reqs s :
  (∀ k, is_Some (items_db s !! k) → 0 < k) →
  ∀ k, is_Some (items_db (run reqs s) !! k) → 0 < k.
Proof.
  revert s. induction reqs as [|req reqs IH]; intros s Hpos; [done|].
  rewrite run_cons. apply IH. by apply serve_keeps_ids_positive.
Qed.
End runs.

(** Creates and nothing else: starting from the empty store, the create of
    the item at position [i] of [its] (counting from 0) runs in a store
    whose next ID is [i + 1]; in the final store the keys are exactly
    1..N, key [i + 1] holds the item at position [i], and the log is the
    list of the creations of 1, 2, ..., N. *)
Lemma only_creates_assign_1_to_N (env : gmap string string) (its : list Item) :
  let final := run (POST_items <$> its) (initial env) in
  (∀ i it, its !! i = Some it →
     next_id (items_db (run (POST_items <$> take i its) (initial env)))
       = Z.of_nat i + 1) ∧
  (∀ i it, its !! i = Some it →
     items_db final !! (Z.of_nat i + 1) = Some it) ∧
  ids_1_to (Z.of_nat (length its)) (items_db final) ∧
  log_records final = imap (λ i, created_message (Z.of_nat i + 1)) its.
Proof.
  intros final. subst final.
  split; [|split; [|split]].
  - intros i it Hit.
    destruct (run_creates (take i its) (initial env) 0) as (Hd & _);
      [lia|apply ids_1_to_empty|].
    rewrite length_take_le in Hd
      by (apply lookup_lt_Some in Hit; lia).
    rewrite (next_id_ids_1_to _ (Z.of_nat i)); [done|lia|].
    by rewrite Z.add_0_l in Hd.
  - intros i it Hit.
    destruct (run_creates its (initial env) 0) as (_ & _ & Hnew & _);
      [lia|apply ids_1_to_empty|].
    specialize (Hnew i it Hit).
    by replace (0 + 1 + Z.of_nat i) with (Z.of_nat i + 1) in Hnew by lia.
  - destruct (run_creates its (initial env) 0) as (Hd & _);
      [lia|apply ids_1_to_empty|].
    by rewrite Z.add_0_l in Hd.
  - destruct (run_creates its (initial env) 0) as (_ & _ & _ & Hlog);
      [lia|apply ids_1_to_empty|].
    rewrite Hlog. simpl. apply imap_ext. intros i it _. simpl. f_equal. lia.
Qed.

(** The three items of the test suite get the IDs 1, 2 and 3. *)
Example only_creates_three_items :
  let final := run (POST_items <$> [item_1; item_2; item_3]) (initial ∅) in
  items_db final !! 1 = Some item_1 ∧
  items_db final !! 2 = Some item_2 ∧
  items_db final !! 3 = Some item_3 ∧
  log_records final =
    ["Created item 1: Item 1"; "Created item 2: Item 2"; "Created item 3: Item 3"].
Proof.
  destruct (only_creates_assign_1_to_N ∅ [item_1; item_2; item_3])
    as (_ & Hnew & _ & Hlog).
  split; [exact (Hnew 0%nat item_1 eq_refl)|].
  split; [exact (Hnew 1%nat item_2 eq_refl)|].
  split; [exact (Hnew 2%nat item_3 eq_refl)|].
  exact Hlog.
Qed.

(** ** Invariant of the reachable stores *)

(** C10: in every state reached from the empty store by any sequence of
    requests, every key of the store is strictly positive; the next ID a
    create would insert is at least 1, and neither [update_item] nor
    [delete_item] makes a key of something that was not one. *)
Theorem reachable_ids_positive (env : gmap string string) (reqs : list request) :
  let s := run reqs (initial env) in
  (∀ k, is_Some (items_db s !! k) → 0 < k) ∧
  1 ≤ next_id (items_db s) ∧
  (∀ item_id item k,
     is_Some (items_db (update_item item_id item s).2 !! k) →
     is_Some (items_db s !! k)) ∧
  (∀ item_id k,
     is_Some (items_db (delete_item item_id s).2 !! k) →
     is_Some (items_db s !! k)).
Proof.
  intros s.
  assert (Hpos : ∀ k, is_Some (items_db s !! k) → 0 < k).
  { subst s. apply run_keeps_ids_positive. intros k.
    simpl. rewrite lookup_empty. by intros [? ?]. }
  split; [done|]. split; [by apply next_id_positive|]. split.
  - intros item_id item k. rewrite update_item_items_db.
    case_decide as Hin; [|done].
    rewrite lookup_insert_is_Some. by intros [<-|[_ Hk]].
  - intros item_id k. rewrite delete_item_items_db.
    rewrite lookup_delete_is_Some. by intros [_ Hk].
Qed.

Lemma reachable_ids_positive_witness :
  is_Some (items_db gap_state !! 3) ∧ 0 < 3.
Proof.
  assert (Hin : is_Some (items_db gap_state !! 3)) by (vm_compute; eauto).
  split; [exact Hin|].
  exact (proj1 (reachable_ids_positive ∅
    [POST_items item_1; POST_items item_2; POST_items item_3; DELETE_item 2])
    3 Hin).
Defined.

(** ** Re-creating after deleting the highest ID *)

Section reuse.
Implicit Types (s : state) (db : gmap Z Item) (h : Z).

Lemma delete_highest_next_id db h :
  highest_id db h →
  next_id (delete h db) = h ↔
    is_Some (db !! (h - 1)) ∨ (h = 1 ∧ ∀ k, is_Some (db !! k) → k = 1).
Proof.
  intros [Hh Hup]. unfold next_id.
  pose proof (py_max_dict_keys (delete h db)) as Hmax.
  set (m := py_max (dict_keys (delete h db)) 0) in *.
  split.
  - intros Heq. destruct Hmax as [[Hempty Hm]|[Hin _]].
    + right. split; [lia|]. intros k Hk.
      destruct (decide (k = h)) as [->|Hne]; [lia|].
      assert (Hk' : is_Some (delete h db !! k))
        by (apply lookup_delete_is_Some; done).
      rewrite Hempty, lookup_empty in Hk'. by destruct Hk'.
    + left. apply lookup_delete_is_Some in Hin as [_ Hin].
      by replace (h - 1) with m by lia.
  - intros Hcase.
    assert (Hgoal : max_existing_id (delete h db) (h - 1)).
    { destruct Hcase as [Hprev|[-> Honly]].
      - right. split.
        + apply lookup_delete_is_Some. split; [lia|done].
        + intros k [Hne Hk]%lookup_delete_is_Some.
          apply Hup in Hk. lia.
      - left. split; [|done]. apply map_empty. intros k.
        apply eq_None_not_Some. intros [Hne Hk]%lookup_delete_is_Some.
        apply Honly in Hk. lia. }
    pose proof (max_existing_id_unique _ _ _ Hmax Hgoal). lia.
Qed.

Lemma gap_state_items_db :
  items_db gap_state = <[1 := item_1]> (<[3 := item_3]> ∅).
Proof. by vm_compute. Qed.

Lemma gap_state_highest_id : highest_id (items_db gap_state) 3.
Proof.
  rewrite gap_state_items_db. split.
  - rewrite lookup_insert_ne by lia. rewrite lookup_insert_eq. eauto.
  - intros k Hk. apply lookup_insert_is_Some in Hk as [<-|[_ Hk]]; [lia|].
    apply lookup_insert_is_Some in Hk as [<-|[_ Hk]]; [lia|].
    rewrite lookup_empty in Hk. by destruct Hk.
Qed.
End reuse.

(** C6, as stated, fails: the store with keys 1 and 3 (three creates, then
    the delete of 2) is not empty and its highest ID is 3; after deleting 3
    the next create assigns 2, and key 3 stays free. *)
Lemma deleted_highest_id_not_reused :
  items_db gap_state ≠ ∅ ∧
  highest_id (items_db gap_state) 3 ∧
  ¬ reuses_id gap_state 3 ∧
  let s2 := (create_item phone (delete_item 3 gap_state).2).2 in
  items_db s2 !! 2 = Some phone ∧
  items_db s2 !! 3 = None ∧
  last (log_records s2) = Some "Created item 2: Phone".
Proof.
  split; [by vm_compute|]. split; [apply gap_state_highest_id|].
  split; [by vm_compute|]. by vm_compute.
Qed.

(** C6, amended: let [h] be the highest ID of the store.  [delete_item h]
    succeeds, and the create that follows inserts its item under the next
    ID of the remaining store; that ID is [h] again exactly when [h - 1]
    was also a key of the store, or the store held the single key 1. *)
Theorem delete_highest_then_create (s : state) (h : Z) (item : Item) :
  highest_id (items_db s) h →
  let s1 := (delete_item h s).2 in
  (delete_item h s).1 = Return (<["message" := "Item deleted successfully"]> ∅) ∧
  items_db s1 = delete h (items_db s) ∧
  create_item item s1 =
    (Return item,
     {| items_db := <[next_id (items_db s1) := item]> (items_db s1);
        environ := environ s1;
        log_records :=
          log_records s1 ++ [created_message (next_id (items_db s1)) item] |}) ∧
  (reuses_id s h ↔
     is_Some (items_db s !! (h - 1)) ∨
     (h = 1 ∧ ∀ k, is_Some (items_db s !! k) → k = 1)).
Proof.
  intros Hh s1. subst s1.
  split; [destruct Hh as [Hin _]; by rewrite delete_item_present|].
  split; [apply delete_item_items_db|]. split; [apply create_item_run|].
  unfold reuses_id. rewrite delete_item_items_db.
  by apply delete_highest_next_id.
Qed.

(** Three creates, then the delete of the highest ID 3 and a create: the
    predecessor 2 is a key, so 3 is assigned again. *)
Lemma delete_highest_then_create_witness :
  let s := run [POST_items item_1; POST_items item_2; POST_items item_3] (initial ∅) in
  reuses_id s 3 ∧
  items_db (create_item phone (delete_item 3 s).2).2 !! 3 = Some phone.
Proof.
  intros s.
  assert (Hh : highest_id (items_db s) 3).
  { split; [vm_compute; eauto|].
    replace (items_db s)
      with (<[1 := item_1]> (<[2 := item_2]> (<[3 := item_3]> (∅ : gmap Z Item))))
      by (by vm_compute).
    intros k Hk.
    apply lookup_insert_is_Some in Hk as [<-|[_ Hk]]; [lia|].
    apply lookup_insert_is_Some in Hk as [<-|[_ Hk]]; [lia|].
    apply lookup_insert_is_Some in Hk as [<-|[_ Hk]]; [lia|].
    rewrite lookup_empty in Hk. by destruct Hk. }
  destruct (delete_highest_then_create s 3 phone Hh) as (_ & _ & _ & Hiff).
  split; [apply Hiff; left; vm_compute; eauto|]. by vm_compute.
Defined.

(** * Further properties of the handlers *)

(** ** Status codes *)

Section statuses.
Implicit Types (s : state) (item : Item) (item_id : Z) (req : request).

Lemma serve_GET_item s item_id :
  serve (GET_item item_id) s =
    match items_db s !! item_id with
    | Some it => (mkResponse 200 (ItemBody it), s)
    | None => (mkResponse 404 (DictBody (<["detail" := "Item not found"]> ∅)), s)
    end.
Proof.
  simpl. destruct (items_db s !! item_id) as [it|] eqn:E.
  - by rewrite (get_item_present _ _ it).
  - by rewrite get_item_absent.
Qed.

Lemma serve_PUT_item s item_id item :
  serve (PUT_item item_id item) s =
    match items_db s !! item_id with
    | Some _ =>
        (mkResponse 200 (ItemBody item),
         {| items_db := <[item_id := item]> (items_db s);
            environ := environ s;
            log_records := log_records s ++ [updated_message item_id item] |})
    | None => (mkResponse 404 (DictBody (<["detail" := "Item not found"]> ∅)), s)
    end.
Proof.
  simpl. destruct (items_db s !! item_id) as [it|] eqn:E.
  - rewrite update_item_present by (rewrite E; eauto). done.
  - by rewrite update_item_absent.
Qed.

Lemma serve_DELETE_item s item_id :
  serve (DELETE_item item_id) s =
    match items_db s !! item_id with
    | Some _ =>
        (mkResponse 200 (DictBody (<["message" := "Item deleted successfully"]> ∅)),
         {| items_db := delete item_id (items_db s);
            environ := environ s;
            log_records := log_records s ++ [deleted_message item_id] |})
    | None => (mkResponse 404 (DictBody (<["detail" := "Item not found"]> ∅)), s)
    end.
Proof.
  simpl. destruct (items_db s !! item_id) as [it|] eqn:E.
  - rewrite delete_item_present by (rewrite E; eauto). done.
  - by rewrite delete_item_absent.
Qed.

Lemma put_store s item_id item :
  items_db (serve (PUT_item item_id item) s).2 =
    match items_db s !! item_id with
    | Some _ => <[item_id := item]> (items_db s)
    | None => items_db s
    end.
Proof. rewrite serve_PUT_item. by destruct (items_db s !! item_id). Qed.

Lemma snoc_ne {A} (l : list A) (x : A) : l ++ [x] ≠ l.
Proof.
  intros H. apply (f_equal length) in H. rewrite length_app in H.
  simpl in H. lia.
Qed.
End statuses.

(** X1: the membership test in front of [items_db[item_id]] and
    [del items_db[item_id]] makes [KeyError] unreachable: no handler ever
    raises it, in any state, and so no request is answered with 500. *)
Theorem key_error_never_raised (s : state) (item_id k : Z) (item : Item) (req : request) :
  (get_item item_id s).1 ≠ Raise (KeyError k) ∧
  (update_item item_id item s).1 ≠ Raise (KeyError k) ∧
  (delete_item item_id s).1 ≠ Raise (KeyError k) ∧
  (create_item item s).1 ≠ Raise (KeyError k) ∧
  http_status (serve req s).1 ≠ 500.
Proof.
  split; [|split; [|split; [|split]]].
  - destruct (items_db s !! item_id) as [it|] eqn:E.
    + by rewrite (get_item_present _ _ it).
    + by rewrite get_item_absent.
  - destruct (items_db s !! item_id) as [it|] eqn:E.
    + rewrite update_item_present by (rewrite E; eauto). done.
    + by rewrite update_item_absent.
  - destruct (items_db s !! item_id) as [it|] eqn:E.
    + rewrite delete_item_present by (rewrite E; eauto). done.
    + by rewrite delete_item_absent.
  - done.
  - destruct req as [| |i|it|i it|i]; try done.
    + rewrite serve_GET_item. by destruct (items_db s !! i).
    + rewrite serve_PUT_item. by destruct (items_db s !! i).
    + rewrite serve_DELETE_item. by destruct (items_db s !! i).
Qed.

(** X2: the status with which a handler answers.  [request] holds the
    requests whose path ID and body passed the validation of the framework
    and were routed to a handler (one that fails it is answered 422 and
    reaches no handler).  For each of these, in every state, the status is
    fixed by the handler and the store: [root] and [health_check] answer
    200, [create_item] 201, and [get_item], [update_item] and [delete_item]
    answer 404 exactly when [item_id] is not a key of the store and 200
    otherwise.  [list_items] never raises in any state. *)
Theorem status_by_route (req : request) (s : state) (so : Ordered.state) :
  http_status (serve req s).1 =
    match req with
    | GET_root | GET_health => 200
    | POST_items _ => 201
    | GET_item item_id | PUT_item item_id _ | DELETE_item item_id =>
        if decide (items_db s !! item_id = None) then 404 else 200
    end ∧
  ∃ listing, (Ordered.list_items so).1 = Return listing.
Proof.
  split; [|by eexists].
  destruct req as [| |i|it|i it|i]; try done.
  - rewrite serve_GET_item. by destruct (items_db s !! i).
  - rewrite serve_PUT_item. by destruct (items_db s !! i).
  - rewrite serve_DELETE_item. by destruct (items_db s !! i).
Qed.

(** X3: which handler calls change the state.  For a request that passed
    validation and reached its handler, the whole state (store,
    environment, log) is left as it was exactly when the handler is a read
    ([root], [health_check], [get_item]) or raises the 404; [create_item],
    and [update_item] or [delete_item] that find their ID, always change
    the state, since they append to the log.  [list_items], the remaining
    read, leaves its state as it was as well. *)
Theorem state_unchanged_iff (req : request) (s : state) (so : Ordered.state) :
  ((serve req s).2 = s ↔
     is_mutation req = false ∨ http_status (serve req s).1 = 404) ∧
  (Ordered.list_items so).2 = so.
Proof.
  split; [|done].
  destruct req as [| |i|it|i it|i]; simpl is_mutation.
  - split; [by left|done].
  - split; [by left|done].
  - rewrite serve_GET_item. split; [by left|].
    by destruct (items_db s !! i).
  - split.
    + intros H. apply (f_equal log_records) in H. simpl in H.
      by apply snoc_ne in H.
    + by intros [?|?].
  - rewrite serve_PUT_item. destruct (items_db s !! i); simpl.
    + split; [|by intros [?|?]].
      intros H. apply (f_equal log_records) in H. simpl in H.
      by apply snoc_ne in H.
    + split; [by right|done].
  - rewrite serve_DELETE_item. destruct (items_db s !! i); simpl.
    + split; [|by intros [?|?]].
      intros H. apply (f_equal log_records) in H. simpl in H.
      by apply snoc_ne in H.
    + split; [by right|done].
Qed.

(** ** The log and the environment *)

Section log_facts.
Implicit Types (s : state) (req : request) (reqs : list request).

Lemma serve_log req s :
  ∃ more, log_records (serve req s).2 = log_records s ++ more ∧
          (length more ≤ if is_mutation req then 1 else 0)%nat.
Proof.
  destruct req as [| |i|it|i it|i]; simpl is_mutation.
  - exists []. by rewrite app_nil_r.
  - exists []. by rewrite app_nil_r.
  - rewrite serve_GET_item. exists [].
    rewrite app_nil_r. by destruct (items_db s !! i).
  - by exists [created_message (next_id (items_db s)) it].
  - rewrite serve_PUT_item. destruct (items_db s !! i).
    + by exists [updated_message i it].
    + exists []. rewrite app_nil_r. split; [done|simpl; lia].
  - rewrite serve_DELETE_item. destruct (items_db s !! i).
    + by exists [deleted_message i].
    + exists []. rewrite app_nil_r. split; [done|simpl; lia].
Qed.
End log_facts.

(** X4: the log is append-only.  Whatever requests are served, the records
    logged before are still there, in the same order, at the front of the
    log; and at most one record is added per POST, PUT or DELETE, none by
    any other request. *)
Theorem log_append_only (reqs : list request) (s : state) :
  ∃ more,
    log_records (run reqs s) = log_records s ++ more ∧
    (length more ≤ length (filter (λ req, is_mutation req) reqs))%nat.
Proof.
  revert s. induction reqs as [|req reqs IH]; intros s.
  - exists []. by rewrite app_nil_r.
  - rewrite run_cons.
    destruct (serve_log req s) as (m1 & H1 & L1).
    destruct (IH (serve req s).2) as (m2 & H2 & L2).
    exists (m1 ++ m2). rewrite H2, H1, app_assoc. split; [done|].
    rewrite length_app. destruct (is_mutation req) eqn:E.
    + rewrite filter_cons_True by (apply Is_true_true; exact E). simpl. lia.
    + rewrite filter_cons_False by (apply Is_true_false; exact E). lia.
Qed.

(** X5: no request changes the environment of the process, so the health
    check answers the same before and after any sequence of requests. *)
Theorem health_check_stable (reqs : list request) (s : state) :
  environ (run reqs s) = environ s ∧
  (serve GET_health (run reqs s)).1 = (serve GET_health s).1.
Proof.
  pose proof (run_environ reqs s) as Henv.
  split; [done|]. simpl. by rewrite Henv.
Qed.

(** ** Keys and sizes *)

(** X6: [create_item] always adds exactly one entry: the new ID was not a
    key before, the keys afterwards are the old keys and the new ID, and
    the store has one entry more. *)
Theorem create_adds_one_entry (s : state) (item : Item) :
  (next_id (items_db s) ∉ dom (items_db s)) ∧
  dom (items_db (create_item item s).2)
    = {[next_id (items_db s)]} ∪ dom (items_db s) ∧
  size (items_db (create_item item s).2) = S (size (items_db s)).
Proof.
  rewrite create_item_run. simpl.
  pose proof (next_id_fresh (items_db s)) as Hfresh.
  split; [by apply not_elem_of_dom|].
  split; [apply dom_insert_L|by apply map_size_insert_None].
Qed.

(** X7: [update_item] never changes which IDs exist, found or not: the key
    set and the size of the store are the same afterwards.  [delete_item]
    removes [item_id] from the key set and nothing else; the store shrinks
    by one entry when [item_id] was a key and keeps its size otherwise. *)
Theorem update_delete_key_set (s : state) (item_id : Z) (item : Item) :
  dom (items_db (update_item item_id item s).2) = dom (items_db s) ∧
  size (items_db (update_item item_id item s).2) = size (items_db s) ∧
  dom (items_db (delete_item item_id s).2) = dom (items_db s) ∖ {[item_id]} ∧
  size (items_db (delete_item item_id s).2) =
    if decide (items_db s !! item_id = None)
    then size (items_db s) else pred (size (items_db s)).
Proof.
  rewrite update_item_items_db, delete_item_items_db.
  split; [|split; [|split]].
  - case_decide as Hin; [|done]. rewrite dom_insert_L.
    apply elem_of_dom in Hin.
    by apply subseteq_union_1_L, singleton_subseteq_l.
  - case_decide as Hin; [|done]. destruct Hin as [old Hold].
    by apply map_size_insert_Some.
  - apply dom_delete_L.
  - case_decide as Hin.
    + by rewrite delete_id.
    + apply map_size_delete_Some. by apply not_eq_None_Some.
Qed.

(** ** The next ID *)

Section next_id_facts.
Implicit Types (db : gmap Z Item) (s : state) (xs ys : list Z).

Lemma py_max_same_elements xs ys d :
  (∀ x, x ∈ xs ↔ x ∈ ys) → py_max xs d = py_max ys d.
Proof.
  intros Hsame. destruct xs as [|x xs'].
  - destruct ys as [|y ys']; [done|].
    assert (Hy : y ∈ ([] : list Z)) by (apply Hsame, elem_of_cons; by left).
    by apply not_elem_of_nil in Hy.
  - destruct ys as [|y ys'].
    + assert (Hx : x ∈ ([] : list Z)) by (apply Hsame, elem_of_cons; by left).
      by apply not_elem_of_nil in Hx.
    + pose proof (py_max_attained (x :: xs') d) as H1.
      pose proof (py_max_attained (y :: ys') d) as H2.
      apply Hsame, (py_max_upper _ d) in H1; [|done].
      apply Hsame, (py_max_upper _ d) in H2; [|done]. lia.
Qed.

Lemma next_id_same_keys db1 db2 :
  (∀ k, is_Some (db1 !! k) ↔ is_Some (db2 !! k)) → next_id db1 = next_id db2.
Proof.
  intros Hsame. unfold next_id. f_equal. apply py_max_same_elements.
  intros k. by rewrite !elem_of_dict_keys.
Qed.

Lemma next_id_insert_fresh db item :
  next_id (<[next_id db := item]> db) = next_id db + 1.
Proof.
  set (n := next_id db). unfold next_id at 1. f_equal.
  apply (max_existing_id_unique (<[n := item]> db)); [apply py_max_dict_keys|].
  right. split.
  - rewrite lookup_insert_eq. eauto.
  - intros k [->|[_ Hk]]%lookup_insert_is_Some; [lia|].
    apply next_id_above in Hk. fold n in Hk. lia.
Qed.

Lemma next_id_insert_present db k item :
  is_Some (db !! k) → next_id (<[k := item]> db) = next_id db.
Proof.
  intros Hk. apply next_id_same_keys. intros j.
  rewrite lookup_insert_is_Some. split.
  - intros [<-|[_ Hj]]; done.
  - intros Hj. destruct (decide (k = j)); [by left|by right].
Qed.

Lemma next_id_delete_le db k :
  (∀ j, is_Some (db !! j) → 0 < j) → next_id (delete k db) ≤ next_id db.
Proof.
  intros Hpos. pose proof (next_id_positive db Hpos) as Hone.
  unfold next_id at 1.
  destruct (py_max_dict_keys (delete k db)) as [[_ ->]|[Hin _]]; [lia|].
  apply lookup_delete_is_Some in Hin as [_ Hin].
  apply next_id_above in Hin. lia.
Qed.

Lemma run_creates_any its s :
  let s' := run (POST_items <$> its) s in
  (∀ i it, its !! i = Some it →
     items_db s' !! (next_id (items_db s) + Z.of_nat i) = Some it) ∧
  (∀ k old, items_db s !! k = Some old → items_db s' !! k = Some old) ∧
  next_id (items_db s') = next_id (items_db s) + Z.of_nat (length its) ∧
  size (items_db s') = (size (items_db s) + length its)%nat.
Proof.
  revert s. induction its as [|it0 rest IH]; intros s s'; subst s'.
  - simpl. split; [done|]. split; [done|]. split; lia.
  - rewrite fmap_cons, run_cons, serve_POST_items.
    set (s1 := {| items_db := <[next_id (items_db s) := it0]> (items_db s) |}).
    destruct (IH s1) as (Hnew & Hold & Hnext & Hsize).
    assert (Hn1 : next_id (items_db s1) = next_id (items_db s) + 1)
      by apply next_id_insert_fresh.
    split; [|split; [|split]].
    + intros [|i] it Hit; simpl in Hit.
      * injection Hit as ->. rewrite Z.add_0_r. apply Hold.
        simpl. apply lookup_insert_eq.
      * specialize (Hnew i it Hit). rewrite Hn1 in Hnew.
        by replace (next_id (items_db s) + Z.of_nat (S i))
          with (next_id (items_db s) + 1 + Z.of_nat i) by lia.
    + intros k old Hk. apply Hold. simpl.
      rewrite lookup_insert_ne; [done|].
      intros <-. by rewrite next_id_fresh in Hk.
    + rewrite Hnext, Hn1. simpl length. lia.
    + rewrite Hsize. simpl.
      rewrite map_size_insert_None by apply next_id_fresh. lia.
Qed.
End next_id_facts.

(** X8: the maximum that [create_item] takes over the keys does not depend
    on the order in which the dictionary yields them, nor on repetitions:
    two key sequences with the same elements give the same maximum, for
    every default. *)
Theorem py_max_order_independent (xs ys : list Z) (d : Z) :
  (∀ x, x ∈ xs ↔ x ∈ ys) → py_max xs d = py_max ys d.
Proof. apply py_max_same_elements. Qed.

Lemma py_max_order_independent_witness :
  py_max [3; 1; 2] 0 = py_max [1; 2; 2; 3] 0.
Proof.
  apply (py_max_order_independent [3; 1; 2] [1; 2; 2; 3] 0).
  intros x. rewrite !elem_of_cons, !elem_of_nil. tauto.
Defined.

(** X9: a create followed by the delete of the ID it assigned puts the
    store back as it was: the delete finds the new ID (status 200), every
    entry is as before the create, and the next ID is the same again. *)
Theorem create_then_delete_restores (s : state) (item : Item) :
  let new_id := next_id (items_db s) in
  let s1 := (serve (POST_items item) s).2 in
  http_status (serve (DELETE_item new_id) s1).1 = 200 ∧
  items_db (serve (DELETE_item new_id) s1).2 = items_db s ∧
  next_id (items_db (serve (DELETE_item new_id) s1).2) = new_id.
Proof.
  intros new_id s1. subst s1. rewrite serve_POST_items, serve_DELETE_item.
  simpl. fold new_id. rewrite lookup_insert_eq. simpl.
  rewrite delete_insert_id by apply next_id_fresh. done.
Qed.

(** X10: creates that follow one another get consecutive IDs, whatever
    the store they start from: the item at position [i] of [its] ends up
    under the ID [next_id + i], every entry that was there before is
    untouched, and afterwards the next ID and the size of the store have
    both grown by the number of items. *)
Theorem consecutive_creates_from_any_state (its : list Item) (s : state) :
  let s' := run (POST_items <$> its) s in
  (∀ i it, its !! i = Some it →
     items_db s' !! (next_id (items_db s) + Z.of_nat i) = Some it) ∧
  (∀ k old, items_db s !! k = Some old → items_db s' !! k = Some old) ∧
  next_id (items_db s') = next_id (items_db s) + Z.of_nat (length its) ∧
  size (items_db s') = (size (items_db s) + length its)%nat.
Proof. apply run_creates_any. Qed.

(** From the store with keys 1 and 3, two creates get the IDs 4 and 5. *)
Lemma consecutive_creates_from_any_state_witness :
  let s' := run (POST_items <$> [phone; laptop]) gap_state in
  items_db s' !! 4 = Some phone ∧ items_db s' !! 5 = Some laptop ∧
  items_db s' !! 3 = Some item_3.
Proof.
  destruct (consecutive_creates_from_any_state [phone; laptop] gap_state)
    as (Hnew & Hold & _).
  split; [exact (Hnew 0%nat phone eq_refl)|].
  split; [exact (Hnew 1%nat laptop eq_refl)|].
  exact (Hold 3 item_3 eq_refl).
Defined.

(** ** IDs and the number of creates *)

Section bounded_ids.
Implicit Types (s : state) (req : request) (reqs : list request).

Lemma posts_cons req reqs :
  posts (req :: reqs) = ((if is_post req then 1 else 0) + posts reqs)%nat.
Proof.
  unfold posts. destruct (is_post req) eqn:E.
  - rewrite filter_cons_True by (apply Is_true_true; exact E). done.
  - rewrite filter_cons_False by (apply Is_true_false; exact E). done.
Qed.

Lemma serve_within req s n :
  within n s → within ((if is_post req then 1 else 0) + n) (serve req s).2.
Proof.
  intros (Hpos & Hnext & Hsize).
  split; [by apply serve_keeps_ids_positive|].
  rewrite serve_items_db.
  destruct req as [| |i|it|i it|i]; simpl is_post; cbn iota;
    try (split; [exact Hnext|exact Hsize]).
  - rewrite next_id_insert_fresh.
    rewrite map_size_insert_None by apply next_id_fresh. split; lia.
  - case_decide as Hin; [|split; [exact Hnext|exact Hsize]].
    rewrite next_id_insert_present by done.
    rewrite map_size_insert_Some by done.
    split; [exact Hnext|exact Hsize].
  - pose proof (next_id_delete_le (items_db s) i Hpos).
    pose proof (map_size_delete i (items_db s)) as Hdel.
    split; [simpl; lia|].
    rewrite Hdel. destruct (items_db s !! i); unfold id; simpl; lia.
Qed.

Lemma run_within reqs s n : within n s → within (posts reqs + n) (run reqs s).
Proof.
  revert s n. induction reqs as [|req reqs IH]; intros s n Hs; [done|].
  rewrite run_cons, posts_cons.
  assert (E : ((if is_post req then 1 else 0) + posts reqs + n
               = posts reqs + ((if is_post req then 1 else 0) + n))%nat).
  { clear. destruct (is_post req); lia. }
  rewrite E. by apply IH, serve_within.
Qed.

Lemma initial_within env : within 0 (initial env).
Proof.
  split; [|split; [done|]].
  - intros k. simpl. rewrite lookup_empty. by intros [? ?].
  - simpl. by rewrite map_size_empty.
Qed.
End bounded_ids.

(** ** Creates with other requests in between, but no delete *)

Section no_delete.
Implicit Types (s : state) (req : request) (reqs : list request).

Lemma posts_app reqs1 reqs2 : posts (reqs1 ++ reqs2) = (posts reqs1 + posts reqs2)%nat.
Proof. unfold posts. by rewrite filter_app, length_app. Qed.

Lemma serve_ids_1_to req s (n : nat) :
  (∀ item_id, req ≠ DELETE_item item_id) →
  ids_1_to (Z.of_nat n) (items_db s) →
  ids_1_to (Z.of_nat ((if is_post req then 1 else 0) + n)) (items_db (serve req s).2).
Proof.
  intros Hnd Hids. rewrite serve_items_db.
  destruct req as [| |i|it|i it|i]; simpl is_post; cbn iota; try exact Hids.
  - rewrite (next_id_ids_1_to _ (Z.of_nat n)) by (done || lia).
    replace (Z.of_nat (1 + n)) with (Z.of_nat n + 1) by lia.
    apply ids_1_to_insert; [done|lia].
  - case_decide as Hin; [|exact Hids].
    intros k. rewrite lookup_insert_is_Some, <- (Hids k). split.
    + intros [<-|[_ Hk]]; done.
    + intros Hk. destruct (decide (i = k)); [by left|by right].
  - by destruct (Hnd i).
Qed.

Lemma run_ids_1_to reqs s (n : nat) :
  (∀ item_id, DELETE_item item_id ∉ reqs) →
  ids_1_to (Z.of_nat n) (items_db s) →
  ids_1_to (Z.of_nat (posts reqs + n)) (items_db (run reqs s)).
Proof.
  revert s n. induction reqs as [|req reqs IH]; intros s n Hnd Hids; [done|].
  rewrite run_cons, posts_cons.
  replace ((if is_post req then 1 else 0) + posts reqs + n)%nat
    with (posts reqs + ((if is_post req then 1 else 0) + n))%nat
    by (destruct (is_post req); lia).
  apply IH.
  - intros item_id Hin. apply (Hnd item_id), elem_of_cons. by right.
  - apply serve_ids_1_to; [|done].
    intros item_id ->. apply (Hnd item_id), elem_of_cons. by left.
Qed.

(** An entry stays as it is while no request deletes and no PUT addresses
    its key. *)
Lemma run_keeps_entry reqs s k v :
  (∀ item_id, DELETE_item item_id ∉ reqs) →
  (∀ x, PUT_item k x ∉ reqs) →
  items_db s !! k = Some v → items_db (run reqs s) !! k = Some v.
Proof.
  revert s. induction reqs as [|req reqs IH]; intros s Hnd Hnp Hk; [done|].
  rewrite run_cons. apply IH.
  - intros item_id Hin. apply (Hnd item_id), elem_of_cons. by right.
  - intros x Hin. apply (Hnp x), elem_of_cons. by right.
  - rewrite serve_items_db.
    destruct req as [| |i|it|i it|i]; try exact Hk.
    + rewrite lookup_insert_ne; [done|].
      intros Heq. rewrite <- Heq, next_id_fresh in Hk. done.
    + case_decide as Hin; [|exact Hk].
      rewrite lookup_insert_ne; [done|].
      intros ->. apply (Hnp it), elem_of_cons. by left.
    + exfalso. apply (Hnd i), elem_of_cons. by left.
Qed.
End no_delete.

(** C4: starting from the empty store, in any sequence of requests that
    contains no DELETE (reads, updates and health checks may come between
    the creates), the creates are assigned the IDs 1, 2, ..., N in the
    order in which they are served.  The keys of the final store are
    exactly 1..N, with N the number of POSTs; and the create that comes
    after [pre] runs in a store whose next ID is the number of POSTs in
    [pre] plus one, stores its item under that ID and logs it, and the
    item is still there at the end unless a later PUT replaced it. *)
Theorem sequential_creates_assign_1_to_N (env : gmap string string)
    (reqs : list request) :
  (∀ item_id, DELETE_item item_id ∉ reqs) →
  ids_1_to (Z.of_nat (posts reqs)) (items_db (run reqs (initial env))) ∧
  (∀ pre it post, reqs = pre ++ POST_items it :: post →
     let before := run pre (initial env) in
     let new_id := Z.of_nat (posts pre) + 1 in
     next_id (items_db before) = new_id ∧
     create_item it before =
       (Return it,
        {| items_db := <[new_id := it]> (items_db before);
           environ := environ before;
           log_records := log_records before ++ [created_message new_id it] |}) ∧
     ((∀ x, PUT_item new_id x ∉ post) →
      items_db (run reqs (initial env)) !! new_id = Some it)).
Proof.
  intros Hnd. split.
  - pose proof (run_ids_1_to reqs (initial env) 0 Hnd ids_1_to_empty) as H.
    by rewrite Nat.add_0_r in H.
  - intros pre it post -> before new_id.
    assert (Hpre : ∀ item_id, DELETE_item item_id ∉ pre).
    { intros item_id Hin. apply (Hnd item_id), elem_of_app. by left. }
    assert (Hpost : ∀ item_id, DELETE_item item_id ∉ post).
    { intros item_id Hin. apply (Hnd item_id), elem_of_app. right.
      apply elem_of_cons. by right. }
    pose proof (run_ids_1_to pre (initial env) 0 Hpre ids_1_to_empty) as Hids.
    rewrite Nat.add_0_r in Hids. fold before in Hids.
    assert (Hnext : next_id (items_db before) = new_id)
      by (apply next_id_ids_1_to; [lia|done]).
    split; [done|]. split; [by rewrite create_item_run, Hnext|].
    intros Hnp.
    replace (pre ++ POST_items it :: post)
      with ((pre ++ [POST_items it]) ++ post) by (by rewrite <- app_assoc).
    unfold run. rewrite foldl_app. fold (run (pre ++ [POST_items it]) (initial env)).
    apply run_keeps_entry; [done|done|].
    rewrite run_snoc, serve_POST_items. fold before. simpl.
    rewrite Hnext. apply lookup_insert_eq.
Qed.

(** Creates with an update, a read and a health check in between: the
    three items still get the IDs 1, 2 and 3. *)
Lemma sequential_creates_assign_1_to_N_witness :
  let reqs := [POST_items item_1; PUT_item 1 phone; GET_item 1;
               POST_items item_2; GET_health; POST_items item_3] in
  ids_1_to 3 (items_db (run reqs (initial ∅))) ∧
  next_id (items_db (run [POST_items item_1; PUT_item 1 phone; GET_item 1]
                         (initial ∅))) = 2 ∧
  items_db (run reqs (initial ∅)) !! 2 = Some item_2.
Proof.
  intros reqs.
  assert (Hnd : ∀ item_id, DELETE_item item_id ∉ reqs).
  { intros item_id Hin. subst reqs.
    repeat (apply elem_of_cons in Hin as [Hin|Hin]; [discriminate Hin|]).
    by apply elem_of_nil in Hin. }
  destruct (sequential_creates_assign_1_to_N ∅ reqs Hnd) as [Hids Hsplit].
  destruct (Hsplit [POST_items item_1; PUT_item 1 phone; GET_item 1] item_2
              [GET_health; POST_items item_3] eq_refl) as (Hnext & _ & Hkept).
  split; [exact Hids|]. split; [exact Hnext|].
  apply Hkept. intros x Hin.
  repeat (apply elem_of_cons in Hin as [Hin|Hin]; [discriminate Hin|]).
  by apply elem_of_nil in Hin.
Defined.

(** X11: in every state reached from the empty store, no ID exceeds the
    number of POST requests served so far: every key lies between 1 and
    that number, the next ID is at most one more, and the store holds at
    most that many entries. *)
Theorem reachable_ids_bounded_by_posts (env : gmap string string) (reqs : list request) :
  let s := run reqs (initial env) in
  (∀ k, is_Some (items_db s !! k) → 1 ≤ k ≤ Z.of_nat (posts reqs)) ∧
  next_id (items_db s) ≤ Z.of_nat (posts reqs) + 1 ∧
  (size (items_db s) ≤ posts reqs)%nat.
Proof.
  intros s.
  destruct (run_within reqs (initial env) 0 (initial_within env))
    as (Hpos & Hnext & Hsize).
  rewrite Nat.add_0_r in Hnext, Hsize. fold s in Hpos, Hnext, Hsize.
  split; [|done]. intros k Hk.
  pose proof (Hpos k Hk). pose proof (next_id_above _ _ Hk). lia.
Qed.

Lemma reachable_ids_bounded_by_posts_witness : 1 ≤ 3 ≤ 3.
Proof.
  apply (proj1 (reachable_ids_bounded_by_posts ∅
    [POST_items item_1; POST_items item_2; POST_items item_3; DELETE_item 2]) 3).
  vm_compute. eauto.
Defined.

(** ** Composition of mutations *)

(** X12: mutations of two different IDs commute on the store: two PUTs,
    two DELETEs, or a PUT and a DELETE, served in either order, leave the
    same store (only the order of the log records differs). *)
Theorem mutations_of_distinct_ids_commute (s : state) (a b : Z) (x y : Item) :
  a ≠ b →
  items_db (run [PUT_item a x; PUT_item b y] s)
    = items_db (run [PUT_item b y; PUT_item a x] s) ∧
  items_db (run [DELETE_item a; DELETE_item b] s)
    = items_db (run [DELETE_item b; DELETE_item a] s) ∧
  items_db (run [PUT_item a x; DELETE_item b] s)
    = items_db (run [DELETE_item b; PUT_item a x] s).
Proof.
  intros Hab. assert (Hba : b ≠ a) by done.
  unfold run. cbn [foldl]. split; [|split].
  - rewrite !put_store.
    destruct (items_db s !! a) as [va|] eqn:Ea;
      destruct (items_db s !! b) as [vb|] eqn:Eb;
      rewrite ?lookup_insert_ne, ?Ea, ?Eb by done; try done.
    by apply insert_insert_ne.
  - rewrite !serve_items_db. apply delete_delete.
  - rewrite put_store, !(serve_items_db (DELETE_item b)), put_store.
    rewrite lookup_delete_ne by done.
    destruct (items_db s !! a); [|done]. by rewrite delete_insert_ne.
Qed.

Lemma mutations_of_distinct_ids_commute_witness :
  items_db (run [PUT_item 1 phone; DELETE_item 3] gap_state)
    = items_db (run [DELETE_item 3; PUT_item 1 phone] gap_state).
Proof.
  apply (mutations_of_distinct_ids_commute gap_state 1 3 phone laptop).
  lia.
Defined.

(** X13: the last write to an ID wins, with nothing left of the earlier
    one in the store: a PUT followed by a PUT of the same ID leaves the
    store of the second PUT alone, a PUT followed by the DELETE of the
    same ID leaves the store of the DELETE alone, and a second DELETE of
    the same ID changes nothing. *)
Theorem last_write_wins (s : state) (item_id : Z) (x y : Item) :
  items_db (run [PUT_item item_id x; PUT_item item_id y] s)
    = items_db (run [PUT_item item_id y] s) ∧
  items_db (run [PUT_item item_id x; DELETE_item item_id] s)
    = items_db (run [DELETE_item item_id] s) ∧
  run [DELETE_item item_id; DELETE_item item_id] s
    = run [DELETE_item item_id] s.
Proof.
  unfold run. cbn [foldl]. split; [|split].
  - rewrite !put_store.
    destruct (items_db s !! item_id) as [v|] eqn:E;
      rewrite ?lookup_insert_eq, ?E; [apply insert_insert_eq|done].
  - rewrite !(serve_items_db (DELETE_item item_id)), put_store.
    destruct (items_db s !! item_id); [apply delete_insert_eq|done].
  - rewrite (serve_DELETE_item (serve _ _).2).
    rewrite serve_items_db, lookup_delete_eq. done.
Qed.

(** ** The fixture of the tests *)

(** X14: after [items_db.clear()], whatever the store held and whoever
    asked before, every item route answers 404 and the next create starts
    again at ID 1: the created item is then read at /items/1, replaced
    there by a PUT, and gone after the DELETE of 1. *)
Theorem clear_restarts_at_1 (s : state) (a b : Item) :
  let s0 := (items_db_clear s).2 in
  let s1 := (serve (POST_items a) s0).2 in
  (∀ item_id, http_status (serve (GET_item item_id) s0).1 = 404 ∧
              http_status (serve (PUT_item item_id b) s0).1 = 404 ∧
              http_status (serve (DELETE_item item_id) s0).1 = 404) ∧
  items_db s1 = {[1 := a]} ∧
  (serve (GET_item 1) s1).1 = mkResponse 200 (ItemBody a) ∧
  (serve (PUT_item 1 b) s1).1 = mkResponse 200 (ItemBody b) ∧
  http_status (serve (DELETE_item 1) s1).1 = 200 ∧
  http_status (serve (GET_item 1) (serve (DELETE_item 1) s1).2).1 = 404.
Proof.
  intros s0 s1. split; [|done].
  intros item_id. rewrite serve_GET_item, serve_PUT_item, serve_DELETE_item.
  subst s0. simpl. by rewrite lookup_empty.
Qed.

(** * The dictionary with its insertion order, and [list_items] *)

Section ordered_dict.
Implicit Types (d : list (Z * Item)) (k : Z) (v : Item).

Lemma od_get_spec d k :
  Ordered.od_get k d = (list_to_map d : gmap Z Item) !! k.
Proof.
  induction d as [|[k' v'] d IH]; simpl; [by rewrite lookup_empty|].
  case_decide as E.
  - subst. by rewrite lookup_insert_eq.
  - by rewrite lookup_insert_ne.
Qed.

Lemma od_set_spec d k v :
  (list_to_map (Ordered.od_set k v d) : gmap Z Item) = <[k := v]> (list_to_map d).
Proof.
  induction d as [|[k' v'] d IH]; simpl; [done|].
  case_decide as E; simpl.
  - subst. by rewrite insert_insert_eq.
  - rewrite IH. by apply insert_insert_ne.
Qed.

Lemma od_del_spec d k :
  (list_to_map (Ordered.od_del k d) : gmap Z Item) = delete k (list_to_map d).
Proof.
  induction d as [|[k' v'] d IH]; simpl; [by rewrite delete_empty|].
  case_decide as E; simpl.
  - subst. by rewrite IH, delete_insert_eq.
  - rewrite IH. by rewrite delete_insert_ne.
Qed.

Lemma od_keys_spec d k :
  k ∈ d.*1 ↔ is_Some ((list_to_map d : gmap Z Item) !! k).
Proof.
  induction d as [|[k' v'] d IH]; simpl.
  - rewrite lookup_empty, elem_of_nil. split; [done|by intros [? ?]].
  - rewrite elem_of_cons, lookup_insert_is_Some', IH.
    split; intros [->|?]; auto.
Qed.

Lemma od_next_id d : py_max d.*1 0 + 1 = next_id (list_to_map d).
Proof.
  unfold next_id. f_equal. apply py_max_same_elements.
  intros k. by rewrite od_keys_spec, elem_of_dict_keys.
Qed.

Lemma od_next_id_fresh d : py_max d.*1 0 + 1 ∉ d.*1.
Proof.
  intros Hin. apply (py_max_upper _ 0) in Hin. lia.
Qed.

Lemma od_set_fresh d k v : k ∉ d.*1 → Ordered.od_set k v d = d ++ [(k, v)].
Proof.
  induction d as [|[k' v'] d IH]; simpl; [done|].
  intros Hk. apply not_elem_of_cons in Hk as [Hne Hk].
  rewrite decide_False by done. by rewrite IH.
Qed.

Lemma od_set_keys_present d k v :
  k ∈ d.*1 → (Ordered.od_set k v d).*1 = d.*1.
Proof.
  induction d as [|[k' v'] d IH]; simpl; [by rewrite elem_of_nil|].
  intros Hk. case_decide as E; csimpl; [done|].
  apply elem_of_cons in Hk as [->|Hk]; [done|]. f_equal. by apply IH.
Qed.

Lemma od_del_keys_subset d k j : j ∈ (Ordered.od_del k d).*1 → j ∈ d.*1.
Proof.
  induction d as [|[k' v'] d IH]; simpl; [done|].
  case_decide as E; csimpl; rewrite ?elem_of_cons.
  - intros Hj. right. by apply IH.
  - intros [->|Hj]; [by left|right; by apply IH].
Qed.

Lemma od_del_sorted d k :
  StronglySorted Z.lt d.*1 → StronglySorted Z.lt (Ordered.od_del k d).*1.
Proof.
  induction d as [|[k' v'] d IH]; simpl; [done|].
  intros [Hall Hd]%StronglySorted_cons.
  case_decide as E; simpl; [by apply IH|].
  apply StronglySorted_cons. split; [|by apply IH].
  apply Forall_forall. intros j Hj%od_del_keys_subset.
  by apply (proj1 (Forall_forall _ _) Hall).
Qed.

Lemma sorted_NoDup (ks : list Z) : StronglySorted Z.lt ks → NoDup ks.
Proof.
  induction ks as [|k ks IH]; [constructor|].
  intros [Hall Hks]%StronglySorted_cons. apply NoDup_cons. split; [|by apply IH].
  intros Hin. apply (proj1 (Forall_forall _ _) Hall) in Hin. lia.
Qed.

(** With distinct keys, writing to the key at position [i] changes the
    value at position [i] and nothing else. *)
Lemma od_set_at d k v (i : nat) :
  NoDup d.*1 → d.*1 !! i = Some k →
  (Ordered.od_set k v d).*2 = <[i := v]> d.*2.
Proof.
  revert i. induction d as [|[k' v'] d IH]; intros i Hnd Hi; [done|].
  simpl in *. apply NoDup_cons in Hnd as [Hk' Hnd].
  destruct i as [|i]; simpl in Hi.
  - injection Hi as ->. by rewrite decide_True.
  - case_decide as E; simpl.
    + subst. exfalso. apply Hk'. by eapply list_elem_of_lookup_2.
    + f_equal. by apply IH.
Qed.

(** With distinct keys, deleting the key at position [i] removes the entry
    at position [i] and nothing else. *)
Lemma od_del_at d k (i : nat) :
  NoDup d.*1 → d.*1 !! i = Some k →
  Ordered.od_del k d = delete i d.
Proof.
  revert i. induction d as [|[k' v'] d IH]; intros i Hnd Hi; [done|].
  simpl in *. apply NoDup_cons in Hnd as [Hk' Hnd].
  destruct i as [|i]; simpl in Hi.
  - injection Hi as ->. rewrite decide_True by done. simpl.
    clear IH Hnd. induction d as [|[j w] d IH]; simpl; [done|].
    apply not_elem_of_cons in Hk' as [Hne Hk'].
    rewrite decide_False by done. f_equal. by apply IH.
  - case_decide as E; simpl.
    + subst. exfalso. apply Hk'. by eapply list_elem_of_lookup_2.
    + f_equal. by apply IH.
Qed.
End ordered_dict.

Section ordered_handlers.
Implicit Types (so : Ordered.state) (item : Item) (item_id : Z).

Lemma ordered_get_item_run so item_id :
  Ordered.get_item item_id so =
    match Ordered.od_get item_id (Ordered.items_db so) with
    | Some it => (Return it, so)
    | None => (Raise not_found, so)
    end.
Proof.
  unfold Ordered.get_item, Ordered.bind, Ordered.contains, Ordered.getitem.
  destruct (Ordered.od_get item_id (Ordered.items_db so)) eqn:E; simpl;
    by rewrite ?E.
Qed.

Lemma ordered_create_item_run so item :
  Ordered.create_item item so =
    (Return item,
     {| Ordered.items_db :=
          Ordered.items_db so ++ [(py_max (Ordered.items_db so).*1 0 + 1, item)];
        Ordered.environ := Ordered.environ so;
        Ordered.log_records :=
          Ordered.log_records so ++
          [created_message (py_max (Ordered.items_db so).*1 0 + 1) item] |}).
Proof.
  unfold Ordered.create_item, Ordered.bind, Ordered.keys, Ordered.setitem,
    Ordered.logger_info, Ordered.ret. simpl.
  by rewrite od_set_fresh by apply od_next_id_fresh.
Qed.

Lemma ordered_update_item_run so item_id item :
  Ordered.update_item item_id item so =
    match Ordered.od_get item_id (Ordered.items_db so) with
    | Some _ =>
        (Return item,
         {| Ordered.items_db := Ordered.od_set item_id item (Ordered.items_db so);
            Ordered.environ := Ordered.environ so;
            Ordered.log_records :=
              Ordered.log_records so ++ [updated_message item_id item] |})
    | None => (Raise not_found, so)
    end.
Proof.
  unfold Ordered.update_item, Ordered.bind, Ordered.contains.
  by destruct (Ordered.od_get item_id (Ordered.items_db so)).
Qed.

Lemma ordered_delete_item_run so item_id :
  Ordered.delete_item item_id so =
    match Ordered.od_get item_id (Ordered.items_db so) with
    | Some _ =>
        (Return (<["message" := "Item deleted successfully"]> ∅),
         {| Ordered.items_db := Ordered.od_del item_id (Ordered.items_db so);
            Ordered.environ := Ordered.environ so;
            Ordered.log_records :=
              Ordered.log_records so ++ [deleted_message item_id] |})
    | None => (Raise not_found, so)
    end.
Proof.
  unfold Ordered.delete_item, Ordered.bind, Ordered.contains, Ordered.delitem.
  destruct (Ordered.od_get item_id (Ordered.items_db so)) eqn:E; simpl; [|done].
  by rewrite E.
Qed.

Lemma forget_get_item so item_id :
  forget_result (Ordered.get_item item_id so) = get_item item_id (forget so).
Proof.
  rewrite ordered_get_item_run, od_get_spec.
  destruct (list_to_map (Ordered.items_db so) !! item_id) as [it|] eqn:E.
  - by rewrite (get_item_present _ _ it).
  - by rewrite get_item_absent.
Qed.

Lemma forget_create_item so item :
  forget_result (Ordered.create_item item so) = create_item item (forget so).
Proof.
  rewrite ordered_create_item_run, create_item_run.
  unfold forget_result, forget. simpl.
  rewrite <- od_next_id.
  rewrite <- od_set_fresh by apply od_next_id_fresh.
  by rewrite od_set_spec.
Qed.

Lemma forget_update_item so item_id item :
  forget_result (Ordered.update_item item_id item so)
    = update_item item_id item (forget so).
Proof.
  rewrite ordered_update_item_run, od_get_spec.
  destruct (list_to_map (Ordered.items_db so) !! item_id) as [it|] eqn:E.
  - rewrite update_item_present by (simpl; rewrite E; eauto).
    unfold forget_result, forget. simpl. by rewrite od_set_spec.
  - by rewrite update_item_absent.
Qed.

Lemma forget_delete_item so item_id :
  forget_result (Ordered.delete_item item_id so) = delete_item item_id (forget so).
Proof.
  rewrite ordered_delete_item_run, od_get_spec.
  destruct (list_to_map (Ordered.items_db so) !! item_id) as [it|] eqn:E.
  - rewrite delete_item_present by (simpl; rewrite E; eauto).
    unfold forget_result, forget. simpl. by rewrite od_del_spec.
  - by rewrite delete_item_absent.
Qed.

Lemma respond_snd {A} (success : Z) (enc : A → content) (r : outcome A * state) :
  (respond success enc r).2 = r.2.
Proof. by destruct r as [[a|[c dt|k]] s]. Qed.

Lemma forget_step req so : forget (Ordered.step req so) = (serve req (forget so)).2.
Proof.
  destruct req as [| |i|it|i it|i]; unfold serve, Ordered.step;
    rewrite respond_snd; [done|done|..].
  - by rewrite <- forget_get_item.
  - by rewrite <- forget_create_item.
  - by rewrite <- forget_update_item.
  - by rewrite <- forget_delete_item.
Qed.

Lemma ordered_run_cons req reqs so :
  Ordered.run (req :: reqs) so = Ordered.run reqs (Ordered.step req so).
Proof. reflexivity. Qed.

Lemma forget_run reqs so : forget (Ordered.run reqs so) = run reqs (forget so).
Proof.
  revert so. induction reqs as [|req reqs IH]; intros so; [done|].
  by rewrite ordered_run_cons, run_cons, IH, forget_step.
Qed.

Lemma forget_run_initial env reqs :
  forget (Ordered.run reqs (Ordered.initial env)) = run reqs (initial env).
Proof. exact (forget_run reqs (Ordered.initial env)). Qed.

Lemma ordered_step_items_db req so :
  Ordered.items_db (Ordered.step req so) =
    match req with
    | GET_root | GET_health | GET_item _ => Ordered.items_db so
    | POST_items item =>
        Ordered.items_db so ++ [(py_max (Ordered.items_db so).*1 0 + 1, item)]
    | PUT_item item_id item =>
        match Ordered.od_get item_id (Ordered.items_db so) with
        | Some _ => Ordered.od_set item_id item (Ordered.items_db so)
        | None => Ordered.items_db so
        end
    | DELETE_item item_id => Ordered.od_del item_id (Ordered.items_db so)
    end.
Proof.
  destruct req as [| |i|it|i it|i]; unfold Ordered.step; [done|done|..].
  - rewrite ordered_get_item_run.
    by destruct (Ordered.od_get i (Ordered.items_db so)).
  - by rewrite ordered_create_item_run.
  - rewrite ordered_update_item_run.
    by destruct (Ordered.od_get i (Ordered.items_db so)).
  - rewrite ordered_delete_item_run.
    destruct (Ordered.od_get i (Ordered.items_db so)) eqn:E; [done|].
    simpl. clear -E. induction (Ordered.items_db so) as [|[k v] d IH]; [done|].
    simpl in *. case_decide; [done|]. f_equal. by apply IH.
Qed.

Lemma ordered_step_sorted req so :
  StronglySorted Z.lt (Ordered.items_db so).*1 →
  StronglySorted Z.lt (Ordered.items_db (Ordered.step req so)).*1.
Proof.
  intros Hs. rewrite ordered_step_items_db.
  destruct req as [| |i|it|i it|i]; try done.
  - rewrite fmap_app. apply StronglySorted_app. split; [|split; [done|]].
    + intros x1 x2 Hx1 ->%list_elem_of_singleton.
      apply (py_max_upper _ 0) in Hx1. simpl. lia.
    + repeat constructor.
  - destruct (Ordered.od_get i (Ordered.items_db so)) eqn:E; [|done].
    rewrite od_set_keys_present; [done|].
    apply od_keys_spec. rewrite <- od_get_spec, E. eauto.
  - by apply od_del_sorted.
Qed.

Lemma ordered_run_sorted reqs so :
  StronglySorted Z.lt (Ordered.items_db so).*1 →
  StronglySorted Z.lt (Ordered.items_db (Ordered.run reqs so)).*1.
Proof.
  revert so. induction reqs as [|req reqs IH]; intros so Hs; [done|].
  rewrite ordered_run_cons. by apply IH, ordered_step_sorted.
Qed.

Lemma ordered_reachable_sorted env reqs :
  StronglySorted Z.lt
    (Ordered.items_db (Ordered.run reqs (Ordered.initial env))).*1.
Proof. apply ordered_run_sorted. constructor. Qed.
End ordered_handlers.

(** X15: the finite-map model is what the insertion-ordered dictionary
    looks like once the order is forgotten: each of the four item handlers,
    run on an ordered state, gives the same outcome as the handler of the
    finite-map model on the forgotten state, and forgetting the order of
    the state it leaves gives the state the other leaves; the same holds
    for every sequence of requests. *)
Theorem ordered_handlers_refine (so : Ordered.state) (item_id : Z) (item : Item)
    (reqs : list request) :
  forget_result (Ordered.get_item item_id so) = get_item item_id (forget so) ∧
  forget_result (Ordered.create_item item so) = create_item item (forget so) ∧
  forget_result (Ordered.update_item item_id item so)
    = update_item item_id item (forget so) ∧
  forget_result (Ordered.delete_item item_id so)
    = delete_item item_id (forget so) ∧
  forget (Ordered.run reqs so) = run reqs (forget so).
Proof.
  split; [apply forget_get_item|]. split; [apply forget_create_item|].
  split; [apply forget_update_item|]. split; [apply forget_delete_item|].
  apply forget_run.
Qed.

(** X16: in every state reached from the empty store, [list_items] returns
    the stored items in increasing order of their IDs, each ID once: there
    is a strictly increasing list of exactly the keys of the store such
    that the listing holds, position by position, the items under them. *)
Theorem list_items_in_id_order (env : gmap string string) (reqs : list request) :
  let so := Ordered.run reqs (Ordered.initial env) in
  let db := items_db (run reqs (initial env)) in
  ∃ ids listing,
    Ordered.list_items so = (Return listing, so) ∧
    StronglySorted Z.lt ids ∧
    (∀ k, k ∈ ids ↔ is_Some (db !! k)) ∧
    Forall2 (λ k it, db !! k = Some it) ids listing.
Proof.
  intros so db.
  assert (Hdb : db = list_to_map (Ordered.items_db so)).
  { subst db so. by rewrite <- forget_run_initial. }
  pose proof (ordered_reachable_sorted env reqs) as Hsorted. fold so in Hsorted.
  exists (Ordered.items_db so).*1, (Ordered.items_db so).*2.
  split; [done|]. split; [done|]. rewrite Hdb. split.
  - intros k. apply od_keys_spec.
  - apply Forall2_fmap, Forall_Forall2_diag, Forall_forall.
    intros [k v] Hkv. simpl. apply elem_of_list_to_map_1; [|done].
    by apply sorted_NoDup.
Qed.

(** X17: creates append to the listing.  From any state, after creating
    the items of [its] one after the other, [list_items] returns what it
    returned before followed by [its], in the order of creation; from the
    empty store it returns [its]. *)
Theorem list_items_after_creates (so : Ordered.state) (env : gmap string string)
    (its : list Item) :
  (∃ before,
     Ordered.list_items so = (Return before, so) ∧
     (Ordered.list_items (Ordered.run (POST_items <$> its) so)).1
       = Return (before ++ its)) ∧
  (Ordered.list_items (Ordered.run (POST_items <$> its) (Ordered.initial env))).1
    = Return its.
Proof.
  assert (Hgen : ∀ st,
    (Ordered.items_db (Ordered.run (POST_items <$> its) st)).*2
      = (Ordered.items_db st).*2 ++ its).
  { induction its as [|it rest IH]; intros st.
    - simpl. by rewrite app_nil_r.
    - rewrite fmap_cons, ordered_run_cons, IH.
      rewrite (ordered_step_items_db (POST_items it)).
      rewrite fmap_app, <- app_assoc. done. }
  split.
  - exists (Ordered.items_db so).*2. split; [done|].
    unfold Ordered.list_items, Ordered.bind, Ordered.values. simpl.
    by rewrite Hgen.
  - unfold Ordered.list_items, Ordered.bind, Ordered.values. simpl.
    by rewrite Hgen.
Qed.

(** X18: [list_items] returns the empty list exactly when the store has
    no entry, in every state. *)
Theorem list_items_empty_iff (so : Ordered.state) :
  (Ordered.list_items so).1 = Return [] ↔ items_db (forget so) = ∅.
Proof.
  unfold Ordered.list_items, Ordered.bind, Ordered.values, forget. simpl.
  destruct (Ordered.items_db so) as [|[k v] d]; simpl.
  - done.
  - split; [done|]. intros H. by apply insert_non_empty in H.
Qed.

(** X19: in every state reached from the empty store, [list_items] returns
    as many items as the store has keys, and an item is in the listing
    exactly when [get_item] returns it for some ID. *)
Theorem list_items_matches_store (env : gmap string string) (reqs : list request) :
  let so := Ordered.run reqs (Ordered.initial env) in
  let s := run reqs (initial env) in
  ∃ listing,
    Ordered.list_items so = (Return listing, so) ∧
    length listing = size (items_db s) ∧
    ∀ it, it ∈ listing ↔ ∃ item_id, (get_item item_id s).1 = Return it.
Proof.
  intros so s.
  assert (Hs : s = forget so).
  { subst s so. by rewrite forget_run_initial. }
  pose proof (sorted_NoDup _ (ordered_reachable_sorted env reqs)) as Hnd.
  fold so in Hnd.
  exists (Ordered.items_db so).*2. split; [done|]. rewrite Hs. simpl. split.
  - rewrite map_size_list_to_map by done. apply length_fmap.
  - intros it. rewrite list_elem_of_fmap. split.
    + intros [[k v] [-> Hkv]]. exists k. simpl.
      apply (elem_of_list_to_map_1 (M := gmap Z)) in Hkv; [|done].
      by rewrite (get_item_present _ _ v).
    + intros [k Hget].
      destruct (items_db (forget so) !! k) as [v|] eqn:E.
      * rewrite (get_item_present _ _ v) in Hget by done.
        injection Hget as ->. exists (k, it). split; [done|].
        by apply elem_of_list_to_map_2 in E.
      * by rewrite get_item_absent in Hget.
Qed.

(** X20: an update keeps the place of the item in the listing.  In a
    state reached from the empty store, if [item_id] is the key at position
    [i] of the dictionary, then after [update_item item_id item] the
    listing is the old one with position [i] replaced by [item], and the
    keys are in the same order as before. *)
Theorem update_keeps_position (env : gmap string string) (reqs : list request)
    (i : nat) (item_id : Z) (item : Item) :
  let so := Ordered.run reqs (Ordered.initial env) in
  (Ordered.items_db so).*1 !! i = Some item_id →
  ∃ before,
    Ordered.list_items so = (Return before, so) ∧
    (Ordered.list_items (Ordered.update_item item_id item so).2).1
      = Return (<[i := item]> before) ∧
    (Ordered.items_db (Ordered.update_item item_id item so).2).*1
      = (Ordered.items_db so).*1.
Proof.
  intros so Hi.
  pose proof (sorted_NoDup _ (ordered_reachable_sorted env reqs)) as Hnd.
  fold so in Hnd.
  assert (Hin : item_id ∈ (Ordered.items_db so).*1)
    by (by eapply list_elem_of_lookup_2).
  exists (Ordered.items_db so).*2. split; [done|].
  rewrite ordered_update_item_run.
  destruct (Ordered.od_get item_id (Ordered.items_db so)) eqn:E.
  - unfold Ordered.list_items, Ordered.bind, Ordered.values. simpl.
    split; [by rewrite (od_set_at _ _ _ i)|by apply od_set_keys_present].
  - apply od_keys_spec in Hin. rewrite <- od_get_spec, E in Hin.
    by destruct Hin.
Qed.

Lemma update_keeps_position_witness :
  (Ordered.list_items
     (Ordered.update_item 2 phone
        (Ordered.run [POST_items item_1; POST_items item_2; POST_items item_3]
           (Ordered.initial ∅))).2).1
    = Return [item_1; phone; item_3].
Proof.
  destruct (update_keeps_position ∅
    [POST_items item_1; POST_items item_2; POST_items item_3] 1 2 phone eq_refl)
    as (before & Hb & Hafter & _).
  injection Hb as <-. exact Hafter.
Defined.

(** X21: a delete takes one item out of the listing and leaves the others
    in their order.  In a state reached from the empty store, if [item_id]
    is the key at position [i] of the dictionary, then after
    [delete_item item_id] the listing is the old one without position [i],
    and so are the keys. *)
Theorem delete_removes_position (env : gmap string string) (reqs : list request)
    (i : nat) (item_id : Z) :
  let so := Ordered.run reqs (Ordered.initial env) in
  (Ordered.items_db so).*1 !! i = Some item_id →
  ∃ before,
    Ordered.list_items so = (Return before, so) ∧
    (Ordered.list_items (Ordered.delete_item item_id so).2).1
      = Return (delete i before) ∧
    (Ordered.items_db (Ordered.delete_item item_id so).2).*1
      = delete i (Ordered.items_db so).*1.
Proof.
  intros so Hi.
  pose proof (sorted_NoDup _ (ordered_reachable_sorted env reqs)) as Hnd.
  fold so in Hnd.
  assert (Hin : item_id ∈ (Ordered.items_db so).*1)
    by (by eapply list_elem_of_lookup_2).
  exists (Ordered.items_db so).*2. split; [done|].
  rewrite ordered_delete_item_run.
  destruct (Ordered.od_get item_id (Ordered.items_db so)) eqn:E.
  - unfold Ordered.list_items, Ordered.bind, Ordered.values. simpl.
    rewrite (od_del_at _ _ i) by done.
    by rewrite !list_fmap_delete.
  - apply od_keys_spec in Hin. rewrite <- od_get_spec, E in Hin.
    by destruct Hin.
Qed.

Lemma delete_removes_position_witness :
  (Ordered.list_items
     (Ordered.delete_item 2
        (Ordered.run [POST_items item_1; POST_items item_2; POST_items item_3]
           (Ordered.initial ∅))).2).1
    = Return [item_1; item_3].
Proof.
  destruct (delete_removes_position ∅
    [POST_items item_1; POST_items item_2; POST_items item_3] 1 2 eq_refl)
    as (before & Hb & Hafter & _).
  injection Hb as <-. exact Hafter.
Defined.

(** X22: every 404 is the same answer: whichever request gets status 404,
    in whatever state, its body is the dictionary with the single field
    [detail] set to "Item not found", and the state is left as it was. *)
Theorem not_found_response (req : request) (s : state) :
  http_status (serve req s).1 = 404 →
  serve req s =
    (mkResponse 404 (DictBody (<["detail" := "Item not found"]> ∅)), s).
Proof.
  destruct req as [| |i|it|i it|i]; try done.
  - rewrite serve_GET_item. by destruct (items_db s !! i).
  - rewrite serve_PUT_item. by destruct (items_db s !! i).
  - rewrite serve_DELETE_item. by destruct (items_db s !! i).
Qed.

Lemma not_found_response_witness :
  serve (DELETE_item 2) gap_state =
    (mkResponse 404 (DictBody (<["detail" := "Item not found"]> ∅)), gap_state).
Proof.
  apply (not_found_response (DELETE_item 2) gap_state).
  by vm_compute.
Defined.
